(** * Output area views: reconciliation, renderer binding and refresh batching

    A shallow embedding of [packages/outputarea/src/views.ts] (with the
    action records of [actions.ts]) and the properties its specification
    states about it. *)

From stdpp Require Import gmap strings list fin_maps.

Open Scope string_scope.
Open Scope list_scope.

(* ===================================================================== *)
(** * Part I: definitions                                                 *)
(* ===================================================================== *)

(** ** Data model *)

(** Modelled from the spec: the [OutputArea] value of [models.ts] (not under
    src/). Section 3 gives it as [{ trusted, itemIds, awaitingClear }]; the
    views read [trusted] and [outputItemIds]. An area is an immutable heap
    object: a value is the object itself, its address [area_ref] and what
    the address holds, so two values are one object ([===]) exactly when
    they are equal, and objects at different addresses differ even when all
    their fields agree. *)
Record OutputArea := mkOutputArea {
  area_ref : nat;
  trusted : bool;
  outputItemIds : list string;
  awaitingClear : bool
}.

(** ** Host widgets and the panel layout *)

(** A child of the area's [PanelLayout]. [uid] is the object identity of the
    widget; [itemId] is the readonly field of an [OutputItemView]. Any widget
    for which [instanceof OutputItemView] is false is a [Foreign] one. *)
Inductive Widget :=
  | ItemView (uid : nat) (itemId : string)
  | Foreign (uid : nat).

#[global] Instance Widget_eq_dec : EqDecision Widget.
Proof. solve_decision. Defined.

Definition widget_uid (w : Widget) : nat :=
  match w with ItemView u _ => u | Foreign u => u end.

(** [widget instanceof OutputItemView], returning the tagged [itemId]. *)
Definition widget_itemId (w : Widget) : option string :=
  match w with ItemView _ k => Some k | Foreign _ => None end.


(** [array.indexOf(w)]: the first index holding [w], [None] for [-1]. *)
Definition indexOf (ws : list Widget) (w : Widget) : option nat :=
  fst <$> list_find (λ x, x = w) ws.

(** [ArrayExt.insert(array, j, w)]. *)
Definition ArrayExt_insert (ws : list Widget) (j : nat) (w : Widget) : list Widget :=
  take j ws ++ w :: drop j ws.

(** [ArrayExt.move(array, i, j)]: the element at [i] is taken out and put
    back at [j], the elements in between shift by one. *)
Definition ArrayExt_move (ws : list Widget) (i j : nat) : list Widget :=
  match ws !! i with
  | Some x => let r := delete i ws in take j r ++ x :: drop j r
  | None => ws
  end.

(** Modelled from the spec: the host layout primitive
    [PanelLayout.insertWidget(index, widget)] (ordered child insertion by
    position; the layout class is not under src/). The index is clamped to
    the array bounds; a widget that is not yet a child is inserted there; a
    widget that is a child already is moved there, or left alone when the
    move has no effect. *)
Definition insertWidget (index : nat) (w : Widget) (ws : list Widget) : list Widget :=
  let j := index `min` length ws in
  match indexOf ws w with
  | None => ArrayExt_insert ws j w
  | Some i =>
      let j := if decide (j = length ws) then j - 1 else j in
      if decide (i = j) then ws else ArrayExt_move ws i j
  end.

(** Modelled from the spec: what [widget.dispose()] does to the parent's
    layout (host disposal): the widget is unparented, which removes it from
    the parent's child array. *)
Definition removeWidget (w : Widget) (ws : list Widget) : list Widget :=
  match indexOf ws w with
  | Some i => delete i ws
  | None => ws
  end.

(** ** OutputAreaView *)

(** The operations one refresh performs on the child views, in the order
    they happen: [new OutputItemView(..)], [layout.insertWidget(i, view)]
    and [view.dispose()]. *)
Inductive Op :=
  | OpCreate (w : Widget)
  | OpInsert (i : nat) (w : Widget)
  | OpDispose (w : Widget).

#[global] Instance Op_eq_dec : EqDecision Op.
Proof. solve_decision. Defined.

(** The state of an area view: the private [_area], the widgets of its
    [PanelLayout], whether the node carries the [jp-mod-trusted] class, and
    the allocator of widget identities ([new] takes [nextUid]). *)
Record OutputAreaView := mkOutputAreaView {
  areaId : string;
  _area : OutputArea;
  widgets : list Widget;
  trustedClass : bool;
  nextUid : nat
}.

(** The property names that every plain object inherits from
    [Object.prototype]. The lookup of the refresh is a plain object
    ([let itemIdMap = {}]): [k in itemIdMap] holds for these names although
    the lookup has no entry of its own for them, and [itemIdMap[k]] then
    reads the inherited value, which is no view. None of these properties
    is enumerable. *)
Definition objectPrototypeKeys : list string :=
  ["constructor"; "hasOwnProperty"; "isPrototypeOf"; "propertyIsEnumerable";
   "toLocaleString"; "toString"; "valueOf";
   "__defineGetter__"; "__defineSetter__";
   "__lookupGetter__"; "__lookupSetter__"; "__proto__"].

(** The variables of the synchronisation loop; [s_itemIdMap] holds the
    entries that [itemIdMap] has of its own. *)
Record Sync := mkSync {
  s_widgets : list Widget;
  s_itemIdMap : gmap string Widget;
  s_nextUid : nat;
  s_ops : list Op
}.

(** "Collect a temporary mapping of the current item views": the body of
    the [for .. of layout.widgets] loop, [itemIdMap[widget.itemId] = widget]
    for an [OutputItemView], on the own entries [m] of the lookup. A later
    widget overwrites an earlier one that has the same [itemId]; for an
    inherited name other than [__proto__] the assignment adds an own entry
    like for any other id. For the id [__proto__] the assignment adds no
    entry: it runs the inherited setter, which makes the view the prototype
    of the lookup, so that [in] and [for .. in] reach the fields of that
    view from then on. The result is [None] there: the run has left the
    lookup of item views (it goes on to insert or dispose values that are
    no views) and is not followed further. *)
Definition collectStep (m : gmap string Widget) (w : Widget)
  : option (gmap string Widget) :=
  match w with
  | ItemView _ k =>
      if decide (k = "__proto__") then None else Some (<[k := w]> m)
  | Foreign _ => Some m
  end.

Fixpoint collectLoop (m : gmap string Widget) (ws : list Widget)
  : option (gmap string Widget) :=
  match ws with
  | [] => Some m
  | w :: rest =>
      match collectStep m w with
      | Some m' => collectLoop m' rest
      | None => None
      end
  end.

Definition collectItemIdMap (ws : list Widget) : option (gmap string Widget) :=
  collectLoop ∅ ws.

(** The body of the [for (i ...)] loop at index [i] with
    [itemId = outputItemIds.get(i)]. [itemId in itemIdMap] holds when the
    lookup has an own entry for the id, and the view of that entry is
    claimed. It also holds when the id is a name the lookup inherits: no
    view is created then, [itemIdMap[itemId]] is the inherited value and
    [layout.insertWidget(i, view)] is handed a value that is no widget (a
    [TypeError] in the host): the result is [None] and the run ends
    there. *)
Definition syncStep (i : nat) (itemId : string) (s : Sync) : option Sync :=
  match s_itemIdMap s !! itemId with
  | Some view =>
      (* view = itemIdMap[itemId]; delete itemIdMap[itemId] *)
      let m := delete itemId (s_itemIdMap s) in
      if decide (s_widgets s !! i = Some view)
      then Some (mkSync (s_widgets s) m (s_nextUid s) (s_ops s))
      else Some (mkSync (insertWidget i view (s_widgets s)) m (s_nextUid s)
                        (s_ops s ++ [OpInsert i view]))
  | None =>
      if decide (itemId ∈ objectPrototypeKeys) then None
      else
        (* view = new OutputItemView({ store, itemId, rendermime }) *)
        let view := ItemView (s_nextUid s) itemId in
        let ops := s_ops s ++ [OpCreate view] in
        if decide (s_widgets s !! i = Some view)
        then Some (mkSync (s_widgets s) (s_itemIdMap s) (S (s_nextUid s)) ops)
        else Some (mkSync (insertWidget i view (s_widgets s)) (s_itemIdMap s)
                          (S (s_nextUid s)) (ops ++ [OpInsert i view]))
  end.

Fixpoint syncLoop (i : nat) (ids : list string) (s : Sync) : option Sync :=
  match ids with
  | [] => Some s
  | itemId :: rest =>
      match syncStep i itemId s with
      | Some s' => syncLoop (S i) rest s'
      | None => None
      end
  end.

(** "Dispose of any remaining stale item views": the [for (key in
    itemIdMap)] loop. It visits the enumerable keys: the own entries left
    in the lookup, and nothing inherited, the prototype being
    [Object.prototype] whenever the run gets here (a run that assigned
    [__proto__] has ended in [collectStep]). The order in which
    [for .. in] visits the keys is not modelled: [staleViews] lists the
    remaining views in the order of the finite map, and no statement below
    depends on it. *)
Definition disposeStale (stale : list Widget) (s : Sync) : Sync :=
  foldl (λ s w, mkSync (removeWidget w (s_widgets s)) (s_itemIdMap s)
                       (s_nextUid s) (s_ops s ++ [OpDispose w])) s stale.

Definition staleViews (m : gmap string Widget) : list Widget :=
  (map_to_list m).*2.

(** [OutputAreaView._onRefreshRequest]: the new state of the view and the
    operations performed on child views; [None] when the run meets a name
    that the lookup inherits. *)
Definition OutputAreaView_onRefreshRequest (v : OutputAreaView)
  : option (OutputAreaView * list Op) :=
  let ids := outputItemIds (_area v) in
  match collectItemIdMap (widgets v) with
  | None => None
  | Some m =>
      match syncLoop 0 ids (mkSync (widgets v) m (nextUid v) []) with
      | None => None
      | Some s1 =>
          let s2 := disposeStale (staleViews (s_itemIdMap s1)) s1 in
          Some (mkOutputAreaView (areaId v) (_area v) (s_widgets s2)
                                 (trusted (_area v)) (s_nextUid s2),
                s_ops s2)
      end
  end.

(** The item ids of the item views among the children, in layout order. *)
Definition itemTags (ws : list Widget) : list string := omap widget_itemId ws.

(** Modelled from the spec: the value [new OutputArea()] of [models.ts] (not
    under src/), "an empty Output Area": untrusted, no item ids, no pending
    clear. [Private.emptyArea] is the one object at its address. *)
Definition emptyArea : OutputArea := mkOutputArea 0 false [] false.

#[global] Instance OutputArea_eq_dec : EqDecision OutputArea.
Proof. solve_decision. Defined.

(** The constructor: the layout is a new [PanelLayout] without children and
    [_area] starts as [Private.emptyArea]. *)
Definition OutputAreaView_new (areaId : string) (nextUid : nat) : OutputAreaView :=
  mkOutputAreaView areaId emptyArea [] false nextUid.

(** ** Output items *)

#[warnings="-register-all"] Inductive JSONValue :=
  | JNull
  | JBool (b : bool)
  | JNumber (z : Z)
  | JString (s : string)
  | JArray (l : list JSONValue)
  | JObject (o : list (string * JSONValue)).

Definition JSONValue_eq_dec : ∀ a b : JSONValue, {a = b} + {a ≠ b}.
Proof.
  fix IH 1. intros a b. decide equality.
  - apply bool_eq_dec.
  - apply Z.eq_dec.
  - apply String.string_dec.
  - apply (List.list_eq_dec IH).
  - apply List.list_eq_dec. intros [k1 v1] [k2 v2].
    destruct (String.string_dec k1 k2); [|right; congruence].
    destruct (IH v1 v2); [left|right]; congruence.
Defined.

#[global] Instance JSONValue_EqDecision : EqDecision JSONValue := JSONValue_eq_dec.

(** A [ReadonlyJSONObject]: the members in order. A mime bundle maps mime
    types to values. *)
Abbreviation ReadonlyJSONObject := (list (string * JSONValue)).

Definition JSONExt_emptyObject : ReadonlyJSONObject := [].

(** Modelled from the spec: the [ErrorOutput] fields of [models.ts] (not
    under src/). [formatError] returns [item.traceback] as the string, so the
    views hold the traceback as one (already joined) string. *)
Record ErrorOutput := mkErrorOutput {
  ename : string;
  evalue : string;
  traceback : string
}.

(** Modelled from the spec: the tagged union [OutputItem] of [models.ts]
    (not under src/), one variant per [type]; the last variant stands for a
    record whose [type] is none of the four. *)
Inductive OutputVariant :=
  | ExecuteResultOutput (data metadata : ReadonlyJSONObject) (executionCount : option Z)
  | DisplayDataOutput (data metadata : ReadonlyJSONObject)
  | StreamOutput (name text : string)
  | ErrorOutputItem (e : ErrorOutput)
  | UnrecognizedOutput (type : string).

(** An item is an immutable heap object at address [item_ref], like an
    area. *)
Record OutputItem := mkOutputItem {
  item_ref : nat;
  item_trusted : bool;
  item_variant : OutputVariant
}.

#[global] Instance ErrorOutput_eq_dec : EqDecision ErrorOutput.
Proof. solve_decision. Defined.
#[global] Instance OutputVariant_eq_dec : EqDecision OutputVariant.
Proof. solve_decision. Defined.
#[global] Instance OutputItem_eq_dec : EqDecision OutputItem.
Proof. solve_decision. Defined.

(** [item.type]. *)
Definition item_type (item : OutputItem) : string :=
  match item_variant item with
  | ExecuteResultOutput _ _ _ => "execute_result"
  | DisplayDataOutput _ _ => "display_data"
  | StreamOutput _ _ => "stream"
  | ErrorOutputItem _ => "error"
  | UnrecognizedOutput t => t
  end.

(** Modelled from the spec: the value [new DisplayDataOutput()] of
    [models.ts] (not under src/), "an empty display-data Output Item". *)
Definition emptyItem : OutputItem :=
  mkOutputItem 0 false (DisplayDataOutput [] []).

(** [Private.formatError]: [item.traceback || `${item.ename}: ${item.evalue}`];
    the empty string is the falsy traceback. *)
Definition formatError (item : ErrorOutput) : string :=
  if decide (traceback item = EmptyString) then
    String.append (ename item) (String.append ": " (evalue item))
  else traceback item.

(** [Private.getData]. *)
Definition getData (item : OutputItem) : ReadonlyJSONObject :=
  match item_variant item with
  | ExecuteResultOutput data _ _ => data
  | DisplayDataOutput data _ => data
  | StreamOutput name text =>
      [(String.append "application/vnd.jupyter." name, JString text)]
  | ErrorOutputItem e =>
      [("application/vnd.jupyter.stderr", JString (formatError e))]
  | UnrecognizedOutput _ => JSONExt_emptyObject
  end.

(** [Private.getMetadata]. *)
Definition getMetadata (item : OutputItem) : ReadonlyJSONObject :=
  match item_variant item with
  | ExecuteResultOutput _ metadata _ => metadata
  | DisplayDataOutput _ metadata => metadata
  | _ => JSONExt_emptyObject
  end.

(** ** The renderer collaborators *)

(** The model handed to a renderer: [{ trusted, data, metadata, setData }].
    [setData] is the view's callback; it is identified by the item id that
    its [SetOutputDataAction] targets. *)
Record IMimeModel := mkMimeModel {
  m_trusted : bool;
  m_data : ReadonlyJSONObject;
  m_metadata : ReadonlyJSONObject;
  m_setData : string
}.

(** A renderer instance: a mutable widget with identity [r_uid], created for
    [r_mimeType]; [r_model] is the model it rendered last. *)
Record IRenderer := mkRenderer {
  r_uid : nat;
  r_mimeType : string;
  r_hasRendererClass : bool;
  r_model : option IMimeModel
}.

(** The registry: [preferredMimeType(bundle, preferUntrusted)] answers a
    mime type or [undefined]. *)
Record RenderMime := mkRenderMime {
  preferredMimeType : ReadonlyJSONObject → bool → option string
}.

(** [rendermime.createRenderer(mimeType)]: a new instance, nothing rendered. *)
Definition createRenderer (mimeType : string) (uid : nat) : IRenderer :=
  mkRenderer uid mimeType false None.

Definition addRendererClass (r : IRenderer) : IRenderer :=
  mkRenderer (r_uid r) (r_mimeType r) true (r_model r).

(** [renderer.renderModel(model)]. *)
Definition renderModel (r : IRenderer) (model : IMimeModel) : IRenderer :=
  mkRenderer (r_uid r) (r_mimeType r) (r_hasRendererClass r) (Some model).

(** What one item refresh does to renderer instances. *)
Inductive RenderOp :=
  | RCreate (uid : nat) (mimeType : string)
  | RRender (uid : nat) (model : IMimeModel)
  | RDispose (uid : nat).

(** Modelled from the spec: the host [SingletonLayout.widget] setter
    (the layout class is not under src/): nothing happens when the widget
    does not change, otherwise the old child is disposed and the new one
    takes its place. Renderers are compared by identity. *)
Definition setLayoutWidget (new old : option IRenderer)
  : option IRenderer * list RenderOp :=
  if decide (r_uid <$> old = r_uid <$> new) then (old, [])
  else (new, match old with Some r => [RDispose (r_uid r)] | None => [] end).

(** ** OutputItemView *)

(** The state of an item view: the readonly fields, the private [_item],
    the widget of its [SingletonLayout], the node's [dataset] entries (absent
    until written), the [jp-mod-trusted] class, and the allocator of
    renderer identities. *)
Record OutputItemView := mkOutputItemView {
  itemId : string;
  rendermime : RenderMime;
  _item : OutputItem;
  layout_widget : option IRenderer;
  dataset_outputType : option string;
  dataset_mimeType : option string;
  item_trustedClass : bool;
  item_nextUid : nat
}.

(** The constructor. *)
Definition OutputItemView_new (itemId : string) (rendermime : RenderMime)
    (nextUid : nat) : OutputItemView :=
  mkOutputItemView itemId rendermime emptyItem None None None false nextUid.

(** [OutputItemView._onRefreshRequest]. *)
Definition OutputItemView_onRefreshRequest (v : OutputItemView)
  : OutputItemView * list RenderOp :=
  let renderer := layout_widget v in
  let trusted := item_trusted (_item v) in
  let data := getData (_item v) in
  let metadata := getMetadata (_item v) in
  let model := mkMimeModel trusted data metadata (itemId v) in
  (* preferredMimeType(..) || '' *)
  let mimeType := default EmptyString
                    (preferredMimeType (rendermime v) data (negb trusted)) in
  let oldMimeType := dataset_mimeType v in
  (* the node state after the three updates *)
  let node w n :=
    mkOutputItemView (itemId v) (rendermime v) (_item v) w
      (Some (item_type (_item v))) (Some mimeType) trusted n in
  (* renderer && oldMimeType === mimeType *)
  let reusable :=
    match renderer with
    | Some r => if decide (oldMimeType = Some mimeType) then Some r else None
    | None => None
    end in
  match reusable with
  | Some r =>
      (* update the existing renderer in place *)
      (node (Some (renderModel r model)) (item_nextUid v),
       [RRender (r_uid r) model])
  | None =>
      if decide (mimeType = EmptyString) then
        (* layout.widget = null *)
        let '(w, ops) := setLayoutWidget None renderer in
        (node w (item_nextUid v), ops)
      else
        let r' := renderModel (addRendererClass
                    (createRenderer mimeType (item_nextUid v))) model in
        (* layout.widget = renderer *)
        let '(w, ops) := setLayoutWidget (Some r') renderer in
        (node w (S (item_nextUid v)),
         [RCreate (r_uid r') mimeType; RRender (r_uid r') model] ++ ops)
  end.

(** ** Actions and the store *)

(** The three actions of [actions.ts]; [output] is the raw notebook-format
    record, [null] is [None]. *)
Inductive OutputAction :=
  | AppendOutputAction (areaId : string) (output : OutputVariant)
  | ClearOutputsAction (areaId : string) (wait : bool)
  | SetOutputDataAction (itemId : string)
      (data metadata : option ReadonlyJSONObject).

(** The [OutputActionType] enum: the [type] name of an action. *)
Definition OutputActionType (a : OutputAction) : string :=
  match a with
  | AppendOutputAction _ _ => "@jupyterlab/outputarea/APPEND_OUTPUT"
  | ClearOutputsAction _ _ => "@jupyterlab/outputarea/CLEAR_OUTPUTS"
  | SetOutputDataAction _ _ _ => "@jupyterlab/outputarea/SET_OUTPUT_DATA"
  end.

(** [IMimeModel.ISetDataOptions]: absent options are [None]. *)
Record ISetDataOptions := mkSetDataOptions {
  opt_data : option ReadonlyJSONObject;
  opt_metadata : option ReadonlyJSONObject
}.

(** [OutputItemView._setData]: the action the callback dispatches. *)
Definition OutputItemView_setData (v : OutputItemView)
    (options : ISetDataOptions) : OutputAction :=
  SetOutputDataAction (itemId v) (opt_data options) (opt_metadata options).

(** Modelled from the spec: the state snapshot of the store ([models.ts], not
    under src/), the two lookup tables. *)
Record OutputState := mkOutputState {
  outputAreaTable : gmap string OutputArea;
  outputItemTable : gmap string OutputItem
}.

(** [store.state.outputAreaTable.get(areaId) || Private.emptyArea]. *)
Definition lookupArea (state : OutputState) (areaId : string) : OutputArea :=
  default emptyArea (outputAreaTable state !! areaId).

(** [store.state.outputItemTable.get(itemId) || null], then
    [item || Private.emptyItem]. *)
Definition lookupItem (state : OutputState) (itemId : string) : OutputItem :=
  default emptyItem (outputItemTable state !! itemId).

(** [OutputAreaView._onStoreChanged] against the current [store.state]; the
    boolean tells whether [this.refresh()] was called. [===] on two immutable
    heap objects holds exactly when they are one object, address and
    contents. *)
Definition OutputAreaView_onStoreChanged (state : OutputState)
    (v : OutputAreaView) : OutputAreaView * bool :=
  let area := lookupArea state (areaId v) in
  if decide (_area v = area) then (v, false)
  else (mkOutputAreaView (areaId v) area (widgets v) (trustedClass v)
                         (nextUid v), true).

(** [OutputItemView._onStoreChanged], likewise. *)
Definition OutputItemView_onStoreChanged (state : OutputState)
    (v : OutputItemView) : OutputItemView * bool :=
  let item := lookupItem state (itemId v) in
  if decide (_item v = item) then (v, false)
  else (mkOutputItemView (itemId v) (rendermime v) item (layout_widget v)
          (dataset_outputType v) (dataset_mimeType v) (item_trustedClass v)
          (item_nextUid v), true).

(** Two objects with the same contents, whatever their addresses. *)
Definition deepEqualArea (a b : OutputArea) : Prop :=
  trusted a = trusted b ∧ outputItemIds a = outputItemIds b
  ∧ awaitingClear a = awaitingClear b.

Definition deepEqualItem (a b : OutputItem) : Prop :=
  item_trusted a = item_trusted b ∧ item_variant a = item_variant b.

(** What happens to a view within one turn of the message loop: the store
    is sent an action, or [refresh()] is called on the view (by a caller, or
    by [onBeforeAttach]). *)
Inductive TurnEvent :=
  | EvDispatch (action : OutputAction)
  | EvRefresh.

Section Dispatch.
(** Modelled from the spec: the store of [models.ts] (not under src/).
    [dispatch(action)] reduces the snapshot with [reducer] and, when
    [emits] says so, fires [changed], which runs the subscriber's handler
    against the new [store.state] before [dispatch] returns. *)
Variable reducer : OutputState → OutputAction → OutputState.
Variable emits : OutputState → OutputAction → bool.

(** One turn seen from an area view: the store's state, the view, and
    whether a refresh request is pending for the view. *)
Definition dispatchToArea (c : OutputState * OutputAreaView * bool)
    (action : OutputAction) : OutputState * OutputAreaView * bool :=
  let '(state, v, pending) := c in
  let state' := reducer state action in
  if emits state action then
    let '(v', asked) := OutputAreaView_onStoreChanged state' v in
    (state', v', pending || asked)
  else (state', v, pending).

Definition dispatchToItem (c : OutputState * OutputItemView * bool)
    (action : OutputAction) : OutputState * OutputItemView * bool :=
  let '(state, v, pending) := c in
  let state' := reducer state action in
  if emits state action then
    let '(v', asked) := OutputItemView_onStoreChanged state' v in
    (state', v', pending || asked)
  else (state', v, pending).

Definition areaTurnStep (c : OutputState * OutputAreaView * bool)
    (ev : TurnEvent) : OutputState * OutputAreaView * bool :=
  match ev with
  | EvDispatch action => dispatchToArea c action
  | EvRefresh => (c.1.1, c.1.2, true)
  end.

Definition itemTurnStep (c : OutputState * OutputItemView * bool)
    (ev : TurnEvent) : OutputState * OutputItemView * bool :=
  match ev with
  | EvDispatch action => dispatchToItem c action
  | EvRefresh => (c.1.1, c.1.2, true)
  end.

(** The turn: the events in order, from a view without pending request. At
    the end of the turn the pending refresh runs and reads [_area] ([_item])
    from the view. *)
Definition areaTurn (events : list TurnEvent) (state : OutputState)
    (v : OutputAreaView) : OutputState * OutputAreaView * bool :=
  foldl areaTurnStep (state, v, false) events.

Definition itemTurn (events : list TurnEvent) (state : OutputState)
    (v : OutputItemView) : OutputState * OutputItemView * bool :=
  foldl itemTurnStep (state, v, false) events.

(** Whether the store fired [changed] during the turn. *)
Fixpoint changedFired (events : list TurnEvent) (state : OutputState) : bool :=
  match events with
  | [] => false
  | EvDispatch action :: rest =>
      emits state action || changedFired rest (reducer state action)
  | EvRefresh :: rest => changedFired rest state
  end.
End Dispatch.

(** ** The message loop *)

(** A posted message: its [type] and whether it is a [ConflatableMessage]. *)
Record Message := mkMessage {
  msg_type : string;
  isConflatable : bool
}.

(** [Private.RefreshRequest], the singleton conflatable message. *)
Definition RefreshRequest : Message := mkMessage "refresh-request" true.

(** A queue entry: the handler (a view node, by identity) and the message. *)
Abbreviation MessageQueue := (list (nat * Message)).

(** Modelled from the spec: [MessageLoop.postMessage] (the message loop is
    not under src/), conflation by identity: a conflatable message is not
    queued a second time while one of the same type is pending for the same
    handler. *)
Definition postMessage (handler : nat) (msg : Message) (queue : MessageQueue)
  : MessageQueue :=
  if isConflatable msg
     && existsb (λ p, bool_decide (p.1 = handler)
                      && bool_decide (msg_type p.2 = msg_type msg)
                      && isConflatable p.2) queue
  then queue
  else queue ++ [(handler, msg)].

(** [refresh()] of either view class, for the view node [this]. *)
Definition refresh (this : nat) (queue : MessageQueue) : MessageQueue :=
  postMessage this RefreshRequest queue.

(** The refresh requests of one turn, in the order they are made. *)
Definition refreshAll (nodes : list nat) (queue : MessageQueue) : MessageQueue :=
  foldl (λ q this, refresh this q) queue nodes.

(** [processMessage]: a ['refresh-request'] runs [_onRefreshRequest], any
    other message goes to the base class. Delivering the queue at the end of
    the turn gives the nodes whose [_onRefreshRequest] runs, in order. *)
Definition refreshExecutions (queue : MessageQueue) : list nat :=
  (filter (λ p, msg_type p.2 = "refresh-request") queue).*1.

(** ** Vocabulary of the statements *)

(** An id that is no property name of [Object.prototype], and a model
    whose ids are all such. *)
Definition ordinaryId (k : string) : Prop := k ∉ objectPrototypeKeys.

Definition ordinaryIds (ids : list string) : Prop := Forall ordinaryId ids.

(** Proof vocabulary, not the code's functions (those are [collectStep],
    [syncStep], [syncLoop] and [OutputAreaView_onRefreshRequest] above):
    the three loops on the own entries of the lookup alone, as total
    functions. This is what the code computes as long as it meets no
    inherited name ([syncStep_inv], [syncStep_own], [refresh_inv] and
    [refresh_own] below relate the two). The loop invariants are proved on
    it; the properties of the views are stated on the code's functions. *)
Definition ownCollectStep (m : gmap string Widget) (w : Widget) : gmap string Widget :=
  match w with
  | ItemView _ k => <[k := w]> m
  | Foreign _ => m
  end.

Definition ownItemIdMap (ws : list Widget) : gmap string Widget :=
  foldl ownCollectStep ∅ ws.

Definition ownStep (i : nat) (itemId : string) (s : Sync) : Sync :=
  let '(view, m, n, ops) :=
    match s_itemIdMap s !! itemId with
    | Some v => (v, delete itemId (s_itemIdMap s), s_nextUid s, s_ops s)
    | None =>
        let v := ItemView (s_nextUid s) itemId in
        (v, s_itemIdMap s, S (s_nextUid s), s_ops s ++ [OpCreate v])
    end in
  if decide (s_widgets s !! i = Some view)
  then mkSync (s_widgets s) m n ops
  else mkSync (insertWidget i view (s_widgets s)) m n (ops ++ [OpInsert i view]).

Fixpoint ownLoop (i : nat) (ids : list string) (s : Sync) : Sync :=
  match ids with
  | [] => s
  | itemId :: rest => ownLoop (S i) rest (ownStep i itemId s)
  end.

Definition ownRefresh (v : OutputAreaView) : OutputAreaView * list Op :=
  let ids := outputItemIds (_area v) in
  let s0 := mkSync (widgets v) (ownItemIdMap (widgets v)) (nextUid v) [] in
  let s1 := ownLoop 0 ids s0 in
  let s2 := disposeStale (staleViews (s_itemIdMap s1)) s1 in
  (mkOutputAreaView (areaId v) (_area v) (s_widgets s2)
                    (trusted (_area v)) (s_nextUid s2),
   s_ops s2).

(** A child that the loop has not claimed after the ids [done]: every
    foreign widget, and every item view whose id is not among [done]. *)
Definition unclaimed (done : list string) (w : Widget) : Prop :=
  ∀ k, widget_itemId w = Some k → k ∉ done.

#[global] Instance unclaimed_dec done w : Decision (unclaimed done w).
Proof.
  unfold unclaimed. destruct w as [u k|u]; simpl.
  - destruct (decide (k ∈ done)) as [Hin|Hout].
    + right. intros H. exact (H k eq_refl Hin).
    + left. intros k' [= <-]. exact Hout.
  - left. intros k' [=].
Defined.

(** The foreign children, in layout order. *)
Definition foreignWidgets (ws : list Widget) : list Widget :=
  filter (λ w, widget_itemId w = None) ws.

(** The allocator is ahead of every widget that exists. *)
Definition allocated (n : nat) (ws : list Widget) : Prop :=
  Forall (λ w, widget_uid w < n) ws.

Definition isMove (op : Op) : Prop :=
  match op with OpInsert _ _ => True | _ => False end.

(** What the synchronisation loop may have done after the ids [done]: it
    never disposes; it creates a view only for an id of [done], under a new
    identity, and, when [done] has no repetition, only for an id that had no
    view in the lookup [m0]. *)
Definition loopOp (m0 : gmap string Widget) (n0 : nat) (done : list string)
    (op : Op) : Prop :=
  match op with
  | OpInsert _ _ => True
  | OpCreate w =>
      ∃ k, widget_itemId w = Some k ∧ (n0 ≤ widget_uid w)%nat ∧ k ∈ done
           ∧ (NoDup done → m0 !! k = None)
  | OpDispose _ => False
  end.

(** The loop invariant after the ids [done], for the children [L] the
    refresh started with, their lookup [m0] and the allocator [n0]: the
    first [length done] children are views for [done], in order; behind them
    come the unclaimed children of [L], in their old order; the lookup holds
    what has not been claimed. *)
Definition syncInv (L : list Widget) (m0 : gmap string Widget) (n0 : nat)
    (done : list string) (s : Sync) : Prop :=
  ∃ vs : list Widget,
    s_widgets s = vs ++ filter (unclaimed done) L
    ∧ widget_itemId <$> vs = Some <$> done
    ∧ (∀ k, s_itemIdMap s !! k = if decide (k ∈ done) then None else m0 !! k)
    ∧ allocated (s_nextUid s) (s_widgets s)
    ∧ (n0 ≤ s_nextUid s)%nat
    ∧ (∀ w k, w ∈ L → widget_itemId w = Some k → k ∈ done → w ∈ vs)
    ∧ Forall (loopOp m0 n0 done) (s_ops s).


(** The guarantees of the reconciler for one refresh of [v] with the
    outcome [r]: the item views end in the order of the model's ids; a live
    view is disposed exactly when its id is gone from the model; a view
    whose id is still there stays the same widget, neither disposed nor
    created anew; a model without repeated ids gets no new view for an id
    that has a live one; and when the model only reorders the live ids,
    every operation is a move. *)
Definition reconciled (v : OutputAreaView) (r : OutputAreaView * list Op)
  : Prop :=
  let ids := outputItemIds (_area v) in
  itemTags (widgets r.1) = ids
  ∧ (∀ w k, w ∈ widgets v → widget_itemId w = Some k →
            (OpDispose w ∈ r.2 ↔ k ∉ ids))
  ∧ (∀ w k, w ∈ widgets v → widget_itemId w = Some k → k ∈ ids →
            (w ∈ widgets r.1) ∧ (OpDispose w ∉ r.2) ∧ (OpCreate w ∉ r.2))
  ∧ (NoDup ids → ∀ w k, OpCreate w ∈ r.2 → widget_itemId w = Some k →
                        k ∉ itemTags (widgets v))
  ∧ (ids ≡ₚ itemTags (widgets v) → Forall isMove r.2).

(** The refresh of [v] runs to its end and reconciles the children. *)
Definition reconciles (v : OutputAreaView) : Prop :=
  ∃ r, OutputAreaView_onRefreshRequest v = Some r ∧ reconciled v r.

(** The refresh of [v] runs to its end, and a second refresh with the same
    model does nothing: no operation, and the view stays as it is. *)
Definition secondRefreshIdle (v : OutputAreaView) : Prop :=
  ∃ v1 ops, OutputAreaView_onRefreshRequest v = Some (v1, ops)
            ∧ OutputAreaView_onRefreshRequest v1 = Some (v1, []).

(** Sample views. [reorderedView]: live views for [a, b, c] under the model
    [c, a, b]. [freshView]: a new view under the model [a, b].
    [inheritedIdView]: a new view whose model lists the id [constructor].
    [protoTagView]: a live item view tagged [__proto__] under the empty
    model. *)
Definition reorderedView : OutputAreaView :=
  mkOutputAreaView "area" (mkOutputArea 1 false ["c"; "a"; "b"] false)
    [ItemView 0 "a"; ItemView 1 "b"; ItemView 2 "c"] false 3.

Definition freshView : OutputAreaView :=
  mkOutputAreaView "area" (mkOutputArea 1 true ["a"; "b"] false) [] false 0.

Definition inheritedIdView : OutputAreaView :=
  mkOutputAreaView "area" (mkOutputArea 1 false ["constructor"] false)
    [] false 0.

Definition protoTagView : OutputAreaView :=
  mkOutputAreaView "area" emptyArea [ItemView 0 "__proto__"] false 1.

(** [mixedView]: a foreign child, a stale view and a view out of place. *)
Definition mixedView : OutputAreaView :=
  mkOutputAreaView "area" (mkOutputArea 1 true ["b"; "d"] false)
    [Foreign 7; ItemView 0 "a"; ItemView 1 "b"] false 8.


(** The states an item view can be in: the constructor's, and what the two
    handlers make of such a state, for any [store.state]. *)
Inductive reachableItemView : OutputItemView → Prop :=
  | reach_new itemId rendermime nextUid :
      reachableItemView (OutputItemView_new itemId rendermime nextUid)
  | reach_storeChanged state v :
      reachableItemView v →
      reachableItemView (OutputItemView_onStoreChanged state v).1
  | reach_refresh v :
      reachableItemView v →
      reachableItemView (OutputItemView_onRefreshRequest v).1.

(** What holds of the renderer in the layout, if there is one: the recorded
    [dataset.mimeType] is the mime type the renderer was created for, it is
    not empty, and the allocator is ahead of the renderer's identity. *)
Definition rendererBound (v : OutputItemView) : Prop :=
  ∀ r, layout_widget v = Some r →
       dataset_mimeType v = Some (r_mimeType r)
       ∧ r_mimeType r ≠ EmptyString
       ∧ r_uid r < item_nextUid v.

(** The model and the mime type one refresh of [v] works with. *)
Definition refreshModel (v : OutputItemView) : IMimeModel :=
  mkMimeModel (item_trusted (_item v)) (getData (_item v))
              (getMetadata (_item v)) (itemId v).

Definition refreshMimeType (v : OutputItemView) : string :=
  default EmptyString
    (preferredMimeType (rendermime v) (getData (_item v))
                       (negb (item_trusted (_item v)))).

(** A sample registry: it prefers the first mime type of the bundle. *)
Definition firstKeyRenderMime : RenderMime :=
  mkRenderMime (λ data _, fst <$> head data).

(** A sample item view showing the stream text [text] with the renderer
    [0], created for [mime]. *)
Definition streamView (text mime : string) : OutputItemView :=
  mkOutputItemView "item" firstKeyRenderMime
    (mkOutputItem 5 false (StreamOutput "stdout" text))
    (Some (mkRenderer 0 mime true None)) (Some "stream") (Some mime) false 1.

(** A sample item view that still shows the renderer [0] of a stream while
    its item is the empty default. *)
Definition orphanedView : OutputItemView :=
  mkOutputItemView "item" firstKeyRenderMime emptyItem
    (Some (mkRenderer 0 "application/vnd.jupyter.stdout" true None))
    (Some "stream") (Some "application/vnd.jupyter.stdout") false 1.

(** A sample run of an item view: constructed for the item [a], told of
    [sampleState], refreshed (which creates the renderer [0]), then told of
    a state without the item. *)
Definition clearedItemView (state : OutputState) : OutputItemView :=
  (OutputItemView_onStoreChanged (mkOutputState ∅ ∅)
     (OutputItemView_onRefreshRequest
        (OutputItemView_onStoreChanged state
           (OutputItemView_new "a" firstKeyRenderMime 0)).1).1).1.

(** The view holds the object that [store.state] holds for its id. *)
Definition areaInSync (state : OutputState) (v : OutputAreaView) : Prop :=
  _area v = lookupArea state (areaId v).

Definition itemInSync (state : OutputState) (v : OutputItemView) : Prop :=
  _item v = lookupItem state (itemId v).

(** The refresh that is pending at the end of the turn reads the object of
    the latest snapshot. *)
Definition areaRefreshReadsLatest
    (reducer : OutputState → OutputAction → OutputState)
    (emits : OutputState → OutputAction → bool)
    (events : list TurnEvent) (state : OutputState) (v : OutputAreaView)
  : Prop :=
  let c := areaTurn reducer emits events state v in
  c.2 = true → areaInSync c.1.1 c.1.2.

Definition itemRefreshReadsLatest
    (reducer : OutputState → OutputAction → OutputState)
    (emits : OutputState → OutputAction → bool)
    (events : list TurnEvent) (state : OutputState) (v : OutputItemView)
  : Prop :=
  let c := itemTurn reducer emits events state v in
  c.2 = true → itemInSync c.1.1 c.1.2.

#[global] Instance OutputState_eq_dec : EqDecision OutputState.
Proof. solve_decision. Defined.

(** A sample store for the examples: its reducer knows [ClearOutputs] without
    [wait] only, which rebinds the area id to a new area object without item
    ids; [changed] fires when the snapshot differs. *)
Definition sampleReducer (state : OutputState) (action : OutputAction)
  : OutputState :=
  match action with
  | ClearOutputsAction areaId false =>
      mkOutputState
        (<[areaId := mkOutputArea (S (area_ref (lookupArea state areaId)))
                       (trusted (lookupArea state areaId)) [] false]>
           (outputAreaTable state))
        (outputItemTable state)
  | _ => state
  end.

Definition sampleEmits (state : OutputState) (action : OutputAction) : bool :=
  bool_decide (sampleReducer state action ≠ state).

Definition sampleState : OutputState :=
  mkOutputState {[ "area" := mkOutputArea 1 true ["a"; "b"] false ]}
                {[ "a" := mkOutputItem 1 true (StreamOutput "stdout" "hi") ]}.

(** How often [_onRefreshRequest] of the node [this] runs when the queue is
    delivered. *)
Definition executionsOf (this : nat) (queue : MessageQueue) : nat :=
  length (filter (λ n, n = this) (refreshExecutions queue)).

(** ** Vocabulary of the further properties *)

Definition isCreate (op : Op) : Prop :=
  match op with OpCreate _ => True | _ => False end.

Definition isDispose (op : Op) : Prop :=
  match op with OpDispose _ => True | _ => False end.

#[global] Instance isCreate_dec op : Decision (isCreate op).
Proof. destruct op; simpl; apply _. Defined.

#[global] Instance isDispose_dec op : Decision (isDispose op).
Proof. destruct op; simpl; apply _. Defined.

(** The views [new OutputItemView(..)] gives for the ids [ids] when the
    allocator stands at [n], and the operations that put them into a layout
    from index [i] on. *)
Fixpoint newViewsFrom (n : nat) (ids : list string) : list Widget :=
  match ids with
  | [] => []
  | k :: rest => ItemView n k :: newViewsFrom (S n) rest
  end.

Fixpoint newViewOpsFrom (i n : nat) (ids : list string) : list Op :=
  match ids with
  | [] => []
  | k :: rest =>
      OpCreate (ItemView n k) :: OpInsert i (ItemView n k)
      :: newViewOpsFrom (S i) (S n) rest
  end.

(** The loop invariant that needs nothing of the live children [L]: the
    first [length done] children are views for [done], in order; behind them
    are children of [L]; what is left in
    the lookup is one of the other children, filed under its own id, an id
    that is not among [done]. *)
Definition frontInv (L : list Widget) (done : list string) (s : Sync) : Prop :=
  ∃ vs rest : list Widget,
    s_widgets s = vs ++ rest
    ∧ rest ⊆ L
    ∧ widget_itemId <$> vs = Some <$> done
    ∧ (∀ k w, s_itemIdMap s !! k = Some w →
              widget_itemId w = Some k ∧ (k ∉ done) ∧ (w ∈ rest))
    ∧ allocated (s_nextUid s) (s_widgets s)
    ∧ Forall (λ op, ¬ isDispose op) (s_ops s).

(** An item view whose id the model [ids] does not list. *)
Definition goneFrom (ids : list string) (w : Widget) : Prop :=
  ∃ k, widget_itemId w = Some k ∧ k ∉ ids.

#[global] Instance goneFrom_dec ids w : Decision (goneFrom ids w).
Proof.
  unfold goneFrom. destruct w as [u k|u]; simpl.
  - destruct (decide (k ∈ ids)) as [Hin|Hout].
    + right. intros (k' & [= <-] & Hout). done.
    + left. eauto.
  - right. intros (k' & [=] & _).
Defined.

(** The state an area view keeps between refreshes when the store lists
    every item id once and gives out ordinary ids: the item views carry
    pairwise distinct, ordinary ids, the allocator is ahead of the children,
    and the model has no repeated id and ordinary ids only. *)
Definition areaViewOk (v : OutputAreaView) : Prop :=
  NoDup (itemTags (widgets v))
  ∧ ordinaryIds (itemTags (widgets v))
  ∧ allocated (nextUid v) (widgets v)
  ∧ NoDup (outputItemIds (_area v))
  ∧ ordinaryIds (outputItemIds (_area v)).

(** A snapshot in which every area lists each item id once, and no item id
    is a name that objects inherit. *)
Definition distinctItemIds (state : OutputState) : Prop :=
  ∀ k area, outputAreaTable state !! k = Some area →
            NoDup (outputItemIds area) ∧ ordinaryIds (outputItemIds area).

(** The states an area view can be in when every snapshot it is told of is
    such a snapshot: the constructor's, what the change handler makes of
    such a state, and what a refresh that runs to its end makes of it. *)
Inductive reachableAreaView : OutputAreaView → Prop :=
  | reachArea_new areaId nextUid :
      reachableAreaView (OutputAreaView_new areaId nextUid)
  | reachArea_storeChanged state v :
      distinctItemIds state →
      reachableAreaView v →
      reachableAreaView (OutputAreaView_onStoreChanged state v).1
  | reachArea_refresh v v' ops :
      reachableAreaView v →
      OutputAreaView_onRefreshRequest v = Some (v', ops) →
      reachableAreaView v'.

(** What holds of the renderer in the layout of an item view, if there is
    one: it carries the renderer class and has rendered a model whose
    [setData] callback dispatches for this view's item. *)
Definition rendererReady (v : OutputItemView) : Prop :=
  ∀ r, layout_widget v = Some r →
       r_hasRendererClass r = true
       ∧ r_mimeType r ≠ EmptyString
       ∧ dataset_mimeType v = Some (r_mimeType r)
       ∧ ∃ m, r_model r = Some m ∧ m_setData m = itemId v.

(** The allocator of an item view is ahead of its renderer. *)
Definition rendererAllocated (v : OutputItemView) : Prop :=
  ∀ r, layout_widget v = Some r → r_uid r < item_nextUid v.

Section Snapshots.
Variable reducer : OutputState → OutputAction → OutputState.

(** The snapshots the store goes through during a turn, one per dispatch. *)
Fixpoint snapshots (events : list TurnEvent) (state : OutputState)
  : list OutputState :=
  match events with
  | [] => []
  | EvDispatch action :: rest =>
      reducer state action :: snapshots rest (reducer state action)
  | EvRefresh :: rest => snapshots rest state
  end.
End Snapshots.

(** The class of an action: [AppendOutputAction], [ClearOutputsAction] or
    [SetOutputDataAction]. *)
Inductive ActionClass := IsAppend | IsClear | IsSetData.

Definition actionClass (a : OutputAction) : ActionClass :=
  match a with
  | AppendOutputAction _ _ => IsAppend
  | ClearOutputsAction _ _ => IsClear
  | SetOutputDataAction _ _ _ => IsSetData
  end.

#[global] Instance Message_eq_dec : EqDecision Message.
Proof. solve_decision. Defined.

(** Messages posted one after the other. *)
Definition postAll (posts : list (nat * Message)) (queue : MessageQueue)
  : MessageQueue :=
  foldl (λ q p, postMessage p.1 p.2 q) queue posts.

(** A store that fires [changed] on every dispatch. *)
Definition alwaysEmits (state : OutputState) (action : OutputAction) : bool :=
  true.

(* ===================================================================== *)
(** * Part II: properties                                                 *)
(* ===================================================================== *)

(** ** The layout primitives on lists *)

Lemma indexOf_cons (x y : Widget) (ws : list Widget) :
  indexOf (y :: ws) x = if decide (y = x) then Some 0 else S <$> indexOf ws x.
Proof.
  unfold indexOf. simpl. destruct (decide (y = x)); [done|].
  by destruct (list_find _ ws) as [[i z]|].
Qed.

Lemma indexOf_None (ws : list Widget) (x : Widget) :
  indexOf ws x = None ↔ x ∉ ws.
Proof.
  induction ws as [|y ws IH]; [split; [intros _; apply not_elem_of_nil|done]|].
  rewrite indexOf_cons, not_elem_of_cons. destruct (decide (y = x)) as [->|Hne].
  - split; [done|]. intros [? _]. done.
  - destruct (indexOf ws x) eqn:E; simpl.
    + split; [done|]. intros [_ Hx]. by apply IH in Hx.
    + split; [|done]. intros _. split; [congruence|]. by apply IH.
Qed.

Lemma indexOf_Some (ws : list Widget) (x : Widget) (i : nat) :
  indexOf ws x = Some i → ws !! i = Some x ∧ x ∉ take i ws.
Proof.
  revert i. induction ws as [|y ws IH]; intros i; [done|].
  rewrite indexOf_cons. destruct (decide (y = x)) as [->|Hne].
  - intros [= <-]. split; [done|]. apply not_elem_of_nil.
  - destruct (indexOf ws x) as [j|] eqn:E; [|done]. intros [= <-].
    destruct (IH j eq_refl) as [Hj Hn]. split; [done|].
    simpl. rewrite not_elem_of_cons. split; [congruence|done].
Qed.

Lemma indexOf_app_r (ps rs : list Widget) (x : Widget) :
  x ∉ ps → indexOf (ps ++ rs) x = (λ k, length ps + k) <$> indexOf rs x.
Proof.
  induction ps as [|p ps IH]; intros Hx; simpl.
  - by destruct (indexOf rs x).
  - apply not_elem_of_cons in Hx as [Hne Hx]. rewrite indexOf_cons.
    destruct (decide (p = x)); [congruence|]. rewrite IH by done.
    by destruct (indexOf rs x).
Qed.

Lemma removeWidget_notin (x : Widget) (ws : list Widget) :
  x ∉ ws → removeWidget x ws = ws.
Proof. intros Hx%indexOf_None. unfold removeWidget. by rewrite Hx. Qed.

Lemma removeWidget_cons (x y : Widget) (ws : list Widget) :
  removeWidget x (y :: ws)
  = if decide (y = x) then ws else y :: removeWidget x ws.
Proof.
  unfold removeWidget. rewrite indexOf_cons.
  destruct (decide (y = x)); [done|]. by destruct (indexOf ws x).
Qed.

Lemma removeWidget_app_r (x : Widget) (ps rs : list Widget) :
  x ∉ ps → removeWidget x (ps ++ rs) = ps ++ removeWidget x rs.
Proof.
  induction ps as [|p ps IH]; intros Hx; [done|].
  apply not_elem_of_cons in Hx as [Hne Hx]. simpl.
  rewrite removeWidget_cons. destruct (decide (p = x)); [congruence|].
  by rewrite IH.
Qed.

Lemma removeWidget_subseteq (x : Widget) (ws : list Widget) :
  removeWidget x ws ⊆ ws.
Proof.
  induction ws as [|y ws IH]; [done|]. rewrite removeWidget_cons.
  destruct (decide (y = x)); intros z Hz.
  - by apply list_elem_of_further.
  - apply elem_of_cons in Hz as [->|Hz]; [apply list_elem_of_here|].
    by apply list_elem_of_further, IH.
Qed.

(** The effect of one loop body on the child array: when the first [i]
    children are in place and [x] is not one of them, [x] ends at index [i]
    and the others keep their order. *)
Lemma place_widget (ps rs : list Widget) (x : Widget) :
  x ∉ ps →
  (if decide ((ps ++ rs) !! length ps = Some x) then ps ++ rs
   else insertWidget (length ps) x (ps ++ rs))
  = ps ++ x :: removeWidget x rs.
Proof.
  intros Hx.
  assert (Hhd : (ps ++ rs) !! length ps = rs !! 0).
  { rewrite lookup_app_r by lia. by rewrite Nat.sub_diag. }
  rewrite Hhd. unfold insertWidget. rewrite indexOf_app_r by done.
  rewrite length_app. destruct (indexOf rs x) as [k|] eqn:E; simpl.
  - apply indexOf_Some in E as [Hk Hfirst].
    assert (Hlen : k < length rs) by (by eapply lookup_lt_Some).
    unfold removeWidget.
    destruct k as [|k].
    + destruct rs as [|r rs]; simplify_eq/=.
      rewrite decide_True by done. by rewrite indexOf_cons, decide_True.
    + destruct rs as [|r rs]; [done|]. simpl in *.
      apply not_elem_of_cons in Hfirst as [Hr Hfirst].
      rewrite decide_False by congruence.
      rewrite Nat.min_l by lia.
      destruct (decide (length ps = length ps + S (length rs))); [lia|].
      destruct (decide (length ps + S k = length ps)); [lia|].
      unfold ArrayExt_move.
      rewrite lookup_app_r by lia.
      replace (length ps + S k - length ps) with (S k) by lia. simpl.
      rewrite Hk. rewrite indexOf_cons, decide_False by done.
      assert (Hidx : indexOf rs x = Some k).
      { clear -Hk Hfirst. revert k Hk Hfirst.
        induction rs as [|y rs IH]; intros k Hk Hf; [done|].
        rewrite indexOf_cons. destruct k as [|k]; simplify_eq/=.
        - by rewrite decide_True.
        - apply not_elem_of_cons in Hf as [Hy Hf].
          rewrite decide_False by done. by rewrite (IH k). }
      rewrite Hidx. simpl.
      assert (Hdel : delete (length ps + S k) (ps ++ r :: rs)
                     = ps ++ r :: delete k rs).
      { clear. induction ps as [|p ps IH]; [done|]. simpl. by rewrite IH. }
      rewrite Hdel. rewrite take_app_length, drop_app_length. done.
  - apply indexOf_None in E.
    assert (Hno : rs !! 0 ≠ Some x).
    { intros H0. apply E. by eapply list_elem_of_lookup_2. }
    rewrite decide_False by done.
    rewrite Nat.min_l by lia. unfold ArrayExt_insert.
    rewrite take_app_length, drop_app_length.
    by rewrite removeWidget_notin.
Qed.

(** ** The id lookup *)

Lemma itemTags_cons (w : Widget) (ws : list Widget) :
  itemTags (w :: ws)
  = match widget_itemId w with Some k => k :: itemTags ws | None => itemTags ws end.
Proof. done. Qed.

Lemma elem_of_itemTags (k : string) (ws : list Widget) :
  k ∈ itemTags ws ↔ ∃ w, w ∈ ws ∧ widget_itemId w = Some k.
Proof. apply list_elem_of_omap. Qed.

Lemma collect_notin (m : gmap string Widget) (ws : list Widget) (k : string) :
  k ∉ itemTags ws → foldl ownCollectStep m ws !! k = m !! k.
Proof.
  revert m. induction ws as [|y ws IH]; intros m Hk; [done|]. simpl.
  rewrite itemTags_cons in Hk. destruct y as [u k'|u]; simpl in *.
  - apply not_elem_of_cons in Hk as [Hne Hk].
    rewrite IH by done. by rewrite lookup_insert_ne.
  - by apply IH.
Qed.

Lemma collect_Some (m : gmap string Widget) (ws : list Widget) k w :
  foldl ownCollectStep m ws !! k = Some w →
  m !! k = Some w ∨ (w ∈ ws ∧ widget_itemId w = Some k).
Proof.
  revert m. induction ws as [|y ws IH]; intros m H; [by left|]. simpl in H.
  apply IH in H as [H|[Hin Ht]].
  - destruct y as [u k'|u]; simpl in H; [|by left].
    destruct (decide (k' = k)) as [->|Hne].
    + rewrite lookup_insert_eq in H. injection H as <-.
      right. split; [apply list_elem_of_here|done].
    + rewrite lookup_insert_ne in H by done. by left.
  - right. split; [by apply list_elem_of_further|done].
Qed.

Lemma collect_NoDup (m : gmap string Widget) (ws : list Widget) k w :
  NoDup (itemTags ws) → w ∈ ws → widget_itemId w = Some k →
  foldl ownCollectStep m ws !! k = Some w.
Proof.
  revert m. induction ws as [|y ws IH]; intros m Hnd Hin Ht.
  - by apply elem_of_nil in Hin.
  - rewrite itemTags_cons in Hnd. apply elem_of_cons in Hin as [->|Hin].
    + rewrite Ht in Hnd. apply NoDup_cons in Hnd as [Hk _]. simpl.
      rewrite collect_notin by done.
      destruct y as [u k'|u]; simplify_eq/=. apply lookup_insert_eq.
    + simpl. apply IH; [|done..].
      destruct (widget_itemId y); [by apply NoDup_cons in Hnd as [_ ?]|done].
Qed.

(** With pairwise distinct ids on the item views, the lookup holds exactly
    the item views, each under its id. *)
Lemma ownItemIdMap_spec (ws : list Widget) k w :
  NoDup (itemTags ws) →
  ownItemIdMap ws !! k = Some w ↔ w ∈ ws ∧ widget_itemId w = Some k.
Proof.
  intros Hnd. unfold ownItemIdMap. split.
  - intros [H|H]%collect_Some; [by rewrite lookup_empty in H|done].
  - intros [Hin Ht]. by apply collect_NoDup.
Qed.

Lemma ownItemIdMap_tag (ws : list Widget) k w :
  ownItemIdMap ws !! k = Some w → w ∈ ws ∧ widget_itemId w = Some k.
Proof.
  unfold ownItemIdMap.
  intros [H|H]%collect_Some; [by rewrite lookup_empty in H|done].
Qed.

Lemma itemTags_filter_NoDup (P : Widget → Prop) `{∀ w, Decision (P w)}
    (ws : list Widget) :
  NoDup (itemTags ws) → NoDup (itemTags (filter P ws)).
Proof.
  induction ws as [|y ws IH]; intros Hnd; [done|].
  rewrite itemTags_cons in Hnd. rewrite filter_cons.
  assert (Htl : NoDup (itemTags ws)).
  { destruct (widget_itemId y); [by apply NoDup_cons in Hnd as [_ ?]|done]. }
  destruct (decide (P y)); [|by apply IH].
  rewrite itemTags_cons. destruct (widget_itemId y) as [k|]; [|by apply IH].
  apply NoDup_cons in Hnd as [Hk _]. apply NoDup_cons. split; [|by apply IH].
  intros (w & [_ Hw]%list_elem_of_filter & Ht)%elem_of_itemTags.
  apply Hk, elem_of_itemTags. eauto.
Qed.

Lemma filter_all {A} (P : A → Prop) `{∀ x, Decision (P x)} (l : list A) :
  Forall P l → filter P l = l.
Proof.
  induction 1 as [|x l Hx _ IH]; [done|].
  by rewrite filter_cons_True, IH.
Qed.

(** Disposing the one view that carries the id [k] leaves the children that
    do not carry [k]. *)
Lemma removeWidget_unique (ws : list Widget) (w : Widget) (k : string) :
  NoDup (itemTags ws) → w ∈ ws → widget_itemId w = Some k →
  removeWidget w ws = filter (λ x, widget_itemId x ≠ Some k) ws.
Proof.
  induction ws as [|y ws IH]; intros Hnd Hin Ht.
  - by apply elem_of_nil in Hin.
  - rewrite removeWidget_cons, filter_cons. rewrite itemTags_cons in Hnd.
    destruct (decide (y = w)) as [->|Hne].
    + rewrite Ht in Hnd. apply NoDup_cons in Hnd as [Hk _].
      rewrite decide_False by (intros Hc; by apply Hc).
      symmetry. apply filter_all, Forall_forall.
      intros x Hx Hc. apply Hk, elem_of_itemTags. eauto.
    + apply elem_of_cons in Hin as [->|Hin]; [done|].
      assert (Hy : widget_itemId y ≠ Some k).
      { intros Hy. rewrite Hy in Hnd. apply NoDup_cons in Hnd as [Hk _].
        apply Hk, elem_of_itemTags. eauto. }
      rewrite decide_True by done. f_equal. apply IH; [|done..].
      destruct (widget_itemId y); [by apply NoDup_cons in Hnd as [_ ?]|done].
Qed.

Lemma filter_ext_in {A} (P Q : A → Prop) `{∀ x, Decision (P x)}
    `{∀ x, Decision (Q x)} (l : list A) :
  (∀ x, x ∈ l → (P x ↔ Q x)) → filter P l = filter Q l.
Proof.
  induction l as [|x l IH]; intros Hext; [done|].
  rewrite !filter_cons.
  assert (Hx : P x ↔ Q x) by (apply Hext, list_elem_of_here).
  rewrite IH by (intros y Hy; by apply Hext, list_elem_of_further).
  destruct (decide (P x)), (decide (Q x)); tauto.
Qed.

(** ** One body of the synchronisation loop *)

(** The view the loop body works with: the one claimed from the lookup, or
    a new one. *)
Lemma ownStep_widgets (i : nat) (id : string) (s : Sync) :
  let view := default (ItemView (s_nextUid s) id) (s_itemIdMap s !! id) in
  s_widgets (ownStep i id s)
  = if decide (s_widgets s !! i = Some view) then s_widgets s
    else insertWidget i view (s_widgets s).
Proof.
  unfold ownStep. destruct (s_itemIdMap s !! id) as [v|]; simpl;
    by case_decide.
Qed.

Lemma ownStep_itemIdMap (i : nat) (id : string) (s : Sync) :
  s_itemIdMap (ownStep i id s) = delete id (s_itemIdMap s).
Proof.
  unfold ownStep. destruct (s_itemIdMap s !! id) as [v|] eqn:E; simpl.
  - by case_decide.
  - rewrite delete_id by done. by case_decide.
Qed.

Lemma ownStep_nextUid (i : nat) (id : string) (s : Sync) :
  s_nextUid (ownStep i id s)
  = match s_itemIdMap s !! id with
    | Some _ => s_nextUid s
    | None => S (s_nextUid s)
    end.
Proof.
  unfold ownStep. destruct (s_itemIdMap s !! id) as [v|]; simpl;
    by case_decide.
Qed.

Lemma ownStep_ops (i : nat) (id : string) (s : Sync) :
  ∃ moved,
    s_ops (ownStep i id s)
    = s_ops s
      ++ match s_itemIdMap s !! id with
         | Some _ => []
         | None => [OpCreate (ItemView (s_nextUid s) id)]
         end
      ++ moved
    ∧ Forall isMove moved.
Proof.
  unfold ownStep. destruct (s_itemIdMap s !! id) as [v|]; simpl;
    case_decide; simpl.
  - exists []. by rewrite ?app_nil_r.
  - eexists [_]. split; [done|]. by repeat constructor.
  - exists []. by rewrite ?app_nil_r.
  - eexists [_]. split; [by rewrite <-?app_assoc|]. by repeat constructor.
Qed.

Lemma unclaimed_snoc (done : list string) (id : string) (w : Widget) :
  unclaimed (done ++ [id]) w ↔ widget_itemId w ≠ Some id ∧ unclaimed done w.
Proof.
  unfold unclaimed. split.
  - intros H. split.
    + intros Hw. apply (H id Hw), elem_of_app. right. by apply list_elem_of_singleton.
    + intros k Hk Hin. apply (H k Hk), elem_of_app. by left.
  - intros [Hne H] k Hk [Hin|Hin%list_elem_of_singleton]%elem_of_app.
    + by apply (H k).
    + congruence.
Qed.

Lemma loopOp_snoc m0 n0 (done : list string) (id : string) (op : Op) :
  loopOp m0 n0 done op → loopOp m0 n0 (done ++ [id]) op.
Proof.
  destruct op as [w|i w|w]; simpl; [|done..].
  intros (k & Hk & Hn & Hin & Hnd). exists k. repeat split; [done..| |].
  - apply elem_of_app. by left.
  - intros [Hd _]%NoDup_app. by apply Hnd.
Qed.

Section Reconcile.
(** The children the refresh starts with, carrying pairwise distinct item
    ids, and the allocator. *)
Variable L : list Widget.
Variable n0 : nat.
Hypothesis L_distinct : NoDup (itemTags L).
Hypothesis L_allocated : allocated n0 L.

Lemma syncInv_init :
  syncInv L (ownItemIdMap L) n0 [] (mkSync L (ownItemIdMap L) n0 []).
Proof.
  exists []. simpl. repeat split; try done.
  - symmetry. apply filter_all, Forall_forall. intros w _ k _.
    apply not_elem_of_nil.
  - intros w k _ _ Hk. by apply elem_of_nil in Hk.
Qed.

Lemma syncInv_step (done : list string) (id : string) (s : Sync) :
  syncInv L (ownItemIdMap L) n0 done s →
  syncInv L (ownItemIdMap L) n0 (done ++ [id])
          (ownStep (length done) id s).
Proof.
  intros (vs & Hw & Hvs & Hmap & Hall & Hn & Hkept & Hops).
  assert (Hlen : length vs = length done).
  { apply (f_equal length) in Hvs. by rewrite !length_fmap in Hvs. }
  set (R := filter (unclaimed done) L) in *.
  set (view := default (ItemView (s_nextUid s) id) (s_itemIdMap s !! id)).
  assert (Htag : widget_itemId view = Some id).
  { unfold view. destruct (s_itemIdMap s !! id) as [v|] eqn:E; [|done].
    rewrite Hmap in E. destruct (decide (id ∈ done)); [done|].
    by apply ownItemIdMap_tag in E as [_ ?]. }
  assert (Hcase : (s_itemIdMap s !! id = Some view ∧ (id ∉ done) ∧ (view ∈ L))
                  ∨ (s_itemIdMap s !! id = None ∧ (view ∉ s_widgets s)
                     ∧ (∀ w, w ∈ R → widget_itemId w ≠ Some id))).
  { unfold view. destruct (s_itemIdMap s !! id) as [v|] eqn:E.
    - left. rewrite Hmap in E. destruct (decide (id ∈ done)); [done|].
      by apply ownItemIdMap_tag in E as [? _].
    - right. repeat split; [| ].
      + intros Hin. eapply Forall_forall in Hall; [|exact Hin].
        simpl in Hall. lia.
      + intros w [Hu Hin]%list_elem_of_filter Hw'.
        rewrite Hmap in E. destruct (decide (id ∈ done)) as [Hd|Hd].
        * by apply (Hu id).
        * assert (ownItemIdMap L !! id = Some w)
            by (by apply ownItemIdMap_spec).
          congruence. }
  assert (HnotP : view ∉ vs).
  { intros Hin. destruct Hcase as [(_ & Hd & _)|(_ & Hf & _)].
    - apply Hd. apply (list_elem_of_fmap_2 widget_itemId) in Hin.
      rewrite Hvs, Htag in Hin.
      by apply list_elem_of_fmap_1 in Hin as (k & [= <-] & ?).
    - apply Hf. rewrite Hw. apply elem_of_app. by left. }
  assert (HR : removeWidget view R = filter (unclaimed (done ++ [id])) L).
  { transitivity (filter (λ x, widget_itemId x ≠ Some id) R).
    - destruct Hcase as [(_ & Hd & HinL)|(_ & Hf & Hnone)].
      + apply removeWidget_unique; [by apply itemTags_filter_NoDup| |done].
        apply list_elem_of_filter. split; [|done].
        intros k Hk. rewrite Htag in Hk. by injection Hk as <-.
      + rewrite removeWidget_notin.
        * symmetry. by apply filter_all, Forall_forall.
        * intros Hin. apply Hf. rewrite Hw. apply elem_of_app. by right.
    - unfold R. rewrite list_filter_filter. apply list_filter_iff.
      intros x. by rewrite unclaimed_snoc. }
  exists (vs ++ [view]). repeat split.
  - rewrite ownStep_widgets. fold view. rewrite Hw, <-Hlen.
    rewrite place_widget by done. rewrite HR. by rewrite <-app_assoc.
  - rewrite !fmap_app, Hvs. simpl. by rewrite Htag.
  - intros k. rewrite ownStep_itemIdMap. rewrite lookup_delete.
    rewrite Hmap. destruct (decide (id = k)) as [->|Hne].
    + rewrite (decide_True (P := k ∈ done ++ [k])); [done|].
      apply elem_of_app. right. by apply list_elem_of_singleton.
    + destruct (decide (k ∈ done)) as [Hd|Hd].
      * rewrite decide_True; [done|]. apply elem_of_app. by left.
      * rewrite decide_False; [done|].
        intros [?|?%list_elem_of_singleton]%elem_of_app; congruence.
  - unfold allocated. rewrite ownStep_widgets, ownStep_nextUid. fold view.
    rewrite Hw, <-Hlen, place_widget by done.
    assert (Hold : ∀ w, w ∈ s_widgets s →
              (widget_uid w < match s_itemIdMap s !! id with
                              | Some _ => s_nextUid s
                              | None => S (s_nextUid s)
                              end)).
    { intros w Hin. eapply Forall_forall in Hall; [|exact Hin]. simpl in Hall.
      destruct (s_itemIdMap s !! id); lia. }
    apply Forall_forall. intros w [Hin|Hin]%elem_of_app.
    + apply Hold. rewrite Hw. apply elem_of_app. by left.
    + apply elem_of_cons in Hin as [->|Hin].
      * destruct Hcase as [(E & _ & HinL)|(E & _ & _)].
        -- apply Hold. rewrite Hw. apply elem_of_app. right.
           apply list_elem_of_filter. split; [|done].
           intros k Hk. rewrite Htag in Hk. injection Hk as <-.
           rewrite Hmap in E. by destruct (decide (id ∈ done)).
        -- unfold view. rewrite E. simpl. lia.
      * apply Hold. rewrite Hw. apply elem_of_app. right.
        by apply removeWidget_subseteq in Hin.
  - rewrite ownStep_nextUid. destruct (s_itemIdMap s !! id); lia.
  - intros w k HinL Hk [Hd|Hs%list_elem_of_singleton]%elem_of_app.
    + apply elem_of_app. left. by apply (Hkept w k).
    + subst k. apply elem_of_app.
      destruct (decide (id ∈ done)) as [Hd|Hd].
      * left. by apply (Hkept w id).
      * right. apply list_elem_of_singleton.
        assert (E : ownItemIdMap L !! id = Some w)
          by (by apply ownItemIdMap_spec).
        unfold view. rewrite Hmap. rewrite decide_False by done. by rewrite E.
  - destruct (ownStep_ops (length done) id s) as (moved & -> & Hmoved).
    rewrite !Forall_app. repeat split.
    + eapply Forall_impl; [exact Hops|]. intros op. apply loopOp_snoc.
    + destruct (s_itemIdMap s !! id) as [v|] eqn:E; [done|].
      repeat constructor. exists id. repeat split; simpl; [done| |].
      * apply elem_of_app. right. by apply list_elem_of_singleton.
      * intros [_ [Hd _]]%NoDup_app. rewrite Hmap in E.
        rewrite decide_False in E; [done|].
        intros Hin. apply (Hd id Hin). by apply list_elem_of_singleton.
    + eapply Forall_impl; [exact Hmoved|]. by intros [].
Qed.

Lemma syncInv_loop (rest done : list string) (s : Sync) :
  syncInv L (ownItemIdMap L) n0 done s →
  syncInv L (ownItemIdMap L) n0 (done ++ rest)
          (ownLoop (length done) rest s).
Proof.
  revert done s. induction rest as [|id rest IH]; intros done s Hinv; simpl.
  - by rewrite app_nil_r.
  - replace (done ++ id :: rest) with ((done ++ [id]) ++ rest)
      by (by rewrite <-app_assoc).
    replace (S (length done)) with (length (done ++ [id]))
      by (rewrite length_app; simpl; lia).
    by apply IH, syncInv_step.
Qed.
End Reconcile.

(** ** The sweep of stale views *)

Lemma disposeStale_widgets (stale : list Widget) (s : Sync) :
  s_widgets (disposeStale stale s)
  = foldl (λ ws w, removeWidget w ws) (s_widgets s) stale.
Proof.
  revert s. induction stale as [|w stale IH]; intros s; [done|].
  unfold disposeStale in *. simpl. by rewrite IH.
Qed.

Lemma disposeStale_ops (stale : list Widget) (s : Sync) :
  s_ops (disposeStale stale s) = s_ops s ++ (OpDispose <$> stale).
Proof.
  revert s. induction stale as [|w stale IH]; intros s.
  - simpl. by rewrite app_nil_r.
  - unfold disposeStale in *. simpl. rewrite IH. simpl.
    by rewrite <-app_assoc.
Qed.

Lemma disposeStale_nextUid (stale : list Widget) (s : Sync) :
  s_nextUid (disposeStale stale s) = s_nextUid s.
Proof.
  revert s. induction stale as [|w stale IH]; intros s; [done|].
  unfold disposeStale in *. simpl. by rewrite IH.
Qed.

Lemma elem_of_staleViews (m : gmap string Widget) (w : Widget) :
  w ∈ staleViews m ↔ ∃ k, m !! k = Some w.
Proof.
  unfold staleViews. rewrite list_elem_of_fmap. split.
  - intros ([k w'] & -> & Hin). exists k. by apply elem_of_map_to_list.
  - intros (k & Hk). exists (k, w). split; [done|].
    by apply elem_of_map_to_list.
Qed.

Lemma removeAll_app_r (stale ps rs : list Widget) :
  (∀ w, w ∈ stale → w ∉ ps) →
  foldl (λ ws w, removeWidget w ws) (ps ++ rs) stale
  = ps ++ foldl (λ ws w, removeWidget w ws) rs stale.
Proof.
  revert rs. induction stale as [|w stale IH]; intros rs Hout; [done|].
  simpl. rewrite removeWidget_app_r by (apply Hout, list_elem_of_here).
  apply IH. intros x Hx. by apply Hout, list_elem_of_further.
Qed.

Lemma itemTags_unique (ws : list Widget) (x w : Widget) (k : string) :
  NoDup (itemTags ws) → x ∈ ws → w ∈ ws →
  widget_itemId x = Some k → widget_itemId w = Some k → x = w.
Proof.
  intros Hnd Hx Hw Hkx Hkw.
  assert (Some x = Some w) as [= ->]; [|done].
  by rewrite <-(collect_NoDup ∅ ws k x), <-(collect_NoDup ∅ ws k w).
Qed.

Lemma removeWidget_filter (ws : list Widget) (w : Widget) (k : string) :
  NoDup (itemTags ws) → widget_itemId w = Some k →
  removeWidget w ws = filter (λ x, x ≠ w) ws.
Proof.
  intros Hnd Hk. destruct (decide (w ∈ ws)) as [Hin|Hout].
  - rewrite (removeWidget_unique ws w k) by done.
    apply filter_ext_in. intros x Hx. split.
    + intros Hne ->. by apply Hne.
    + intros Hne Hkx. apply Hne. by eapply itemTags_unique.
  - rewrite removeWidget_notin by done. symmetry.
    apply filter_all, Forall_forall. by intros x Hx ->.
Qed.

Lemma removeAll_filter (stale ws : list Widget) :
  NoDup (itemTags ws) →
  (∀ w, w ∈ stale → is_Some (widget_itemId w)) →
  foldl (λ ws w, removeWidget w ws) ws stale = filter (λ x, x ∉ stale) ws.
Proof.
  revert ws. induction stale as [|w stale IH]; intros ws Hnd Hviews.
  - simpl. symmetry. apply filter_all, Forall_forall.
    intros x _. apply not_elem_of_nil.
  - simpl. destruct (Hviews w (list_elem_of_here _ _)) as [k Hk].
    rewrite (removeWidget_filter ws w k) by done.
    rewrite IH.
    + rewrite list_filter_filter. apply list_filter_iff.
      intros x. rewrite not_elem_of_cons. tauto.
    + by apply itemTags_filter_NoDup.
    + intros x Hx. by apply Hviews, list_elem_of_further.
Qed.

(** ** The whole run on the own entries *)

(** What the run on the own entries makes of children that carry pairwise
    distinct item ids: the views for the model's ids come first, in model order, the
    foreign children follow; the loop only creates and moves; the sweep
    disposes the item views whose id the model no longer has. *)
Lemma refresh_structure (v : OutputAreaView) :
  NoDup (itemTags (widgets v)) →
  allocated (nextUid v) (widgets v) →
  let ids := outputItemIds (_area v) in
  let r := ownRefresh v in
  ∃ vs loopOps stale,
    widgets r.1 = vs ++ foreignWidgets (widgets v)
    ∧ widget_itemId <$> vs = Some <$> ids
    ∧ r.2 = loopOps ++ (OpDispose <$> stale)
    ∧ Forall (loopOp (ownItemIdMap (widgets v)) (nextUid v) ids) loopOps
    ∧ (∀ w, w ∈ stale ↔
            w ∈ widgets v ∧ ∃ k, widget_itemId w = Some k ∧ k ∉ ids)
    ∧ (∀ w k, w ∈ widgets v → widget_itemId w = Some k → k ∈ ids → w ∈ vs)
    ∧ allocated (nextUid r.1) (widgets r.1).
Proof.
  intros Hnd Hall ids r.
  pose proof (syncInv_loop (widgets v) (nextUid v) Hnd ids [] _
                (syncInv_init (widgets v) (nextUid v) Hall)) as Hinv.
  simpl in Hinv.
  set (s1 := ownLoop 0 ids
               (mkSync (widgets v) (ownItemIdMap (widgets v)) (nextUid v) []))
    in *.
  destruct Hinv as (vs & Hw & Hvs & Hmap & Halloc & Hn & Hkept & Hops).
  set (stale := staleViews (s_itemIdMap s1)).
  assert (Hstale : ∀ w, w ∈ stale ↔
            w ∈ widgets v ∧ ∃ k, widget_itemId w = Some k ∧ k ∉ ids).
  { intros w. unfold stale. rewrite elem_of_staleViews. split.
    - intros (k & Hk). rewrite Hmap in Hk.
      destruct (decide (k ∈ ids)); [done|].
      apply ownItemIdMap_tag in Hk as [? ?]. eauto.
    - intros (Hin & k & Hk & Hout). exists k. rewrite Hmap.
      rewrite decide_False by done. by apply ownItemIdMap_spec. }
  assert (Hfinal : s_widgets (disposeStale stale s1)
                   = vs ++ foreignWidgets (widgets v)).
  { rewrite disposeStale_widgets, Hw. rewrite removeAll_app_r.
    - f_equal. rewrite removeAll_filter.
      + rewrite list_filter_filter. apply filter_ext_in. intros x Hx. split.
        * intros [Hns Hun]. destruct (widget_itemId x) as [k|] eqn:Hk; [|done].
          exfalso. apply Hns, Hstale. split; [done|]. exists k. split; [done|].
          by apply Hun.
        * intros Hnone. split.
          -- intros (_ & k & Hk & _)%Hstale. congruence.
          -- intros k Hk. congruence.
      + by apply itemTags_filter_NoDup.
      + intros w (_ & k & Hk & _)%Hstale. by exists k.
    - intros w (_ & k & Hk & Hout)%Hstale Hin.
      apply (list_elem_of_fmap_2 widget_itemId) in Hin. rewrite Hvs, Hk in Hin.
      by apply list_elem_of_fmap_1 in Hin as (k' & [= <-] & ?). }
  exists vs, (s_ops s1), stale. unfold r, ownRefresh.
  fold ids s1 stale. simpl. split_and!; try done.
  - by rewrite disposeStale_ops.
  - rewrite disposeStale_nextUid, Hfinal. rewrite Hw in Halloc.
    apply Forall_app in Halloc as [Hvsall Hrest]. apply Forall_app. split; [done|].
    apply Forall_forall. intros w [_ Hin]%list_elem_of_filter.
    eapply Forall_forall in Hall; [|exact Hin]. simpl in Hall. lia.
Qed.

Lemma itemTags_app (ws1 ws2 : list Widget) :
  itemTags (ws1 ++ ws2) = itemTags ws1 ++ itemTags ws2.
Proof. apply omap_app. Qed.

Lemma itemTags_views (vs : list Widget) (ids : list string) :
  widget_itemId <$> vs = Some <$> ids → itemTags vs = ids.
Proof.
  revert ids. induction vs as [|w vs IH]; intros [|k ids] H; try done.
  injection H as Hw Hrest. rewrite itemTags_cons, Hw. f_equal. by apply IH.
Qed.

Lemma itemTags_foreign (ws : list Widget) : itemTags (foreignWidgets ws) = [].
Proof.
  induction ws as [|w ws IH]; [done|]. unfold foreignWidgets in *.
  rewrite filter_cons. destruct (decide (widget_itemId w = None)) as [E|E]; [|done].
  by rewrite itemTags_cons, E.
Qed.

(** ** The refresh and the names the lookup inherits *)

Lemma collectLoop_inv (m m' : gmap string Widget) (ws : list Widget) :
  collectLoop m ws = Some m' → m' = foldl ownCollectStep m ws.
Proof.
  revert m. induction ws as [|w ws IH]; intros m H; simpl in *.
  - by injection H as <-.
  - destruct w as [u k|u]; simpl in *; [|by apply IH].
    case_decide; [done|]. by apply IH.
Qed.

Lemma collectLoop_own (m : gmap string Widget) (ws : list Widget) :
  "__proto__" ∉ itemTags ws →
  collectLoop m ws = Some (foldl ownCollectStep m ws).
Proof.
  revert m. induction ws as [|w ws IH]; intros m H; [done|].
  rewrite itemTags_cons in H. destruct w as [u k|u]; simpl in *.
  - apply not_elem_of_cons in H as [Hk H].
    rewrite decide_False by congruence. by apply IH.
  - by apply IH.
Qed.

Lemma syncStep_inv (i : nat) (k : string) (s s' : Sync) :
  syncStep i k s = Some s' → s' = ownStep i k s.
Proof.
  unfold syncStep, ownStep.
  destruct (s_itemIdMap s !! k); repeat case_decide; by intros [= <-].
Qed.

Lemma syncStep_own (i : nat) (k : string) (s : Sync) :
  ordinaryId k → syncStep i k s = Some (ownStep i k s).
Proof.
  intros Hk. unfold syncStep, ownStep.
  destruct (s_itemIdMap s !! k); [by case_decide|].
  rewrite (decide_False (P := k ∈ objectPrototypeKeys)) by exact Hk.
  by case_decide.
Qed.

Lemma syncLoop_inv (ids : list string) (i : nat) (s s' : Sync) :
  syncLoop i ids s = Some s' → s' = ownLoop i ids s.
Proof.
  revert i s. induction ids as [|k ids IH]; intros i s H; simpl in *.
  - by injection H as <-.
  - destruct (syncStep i k s) as [s1|] eqn:E; [|done].
    apply syncStep_inv in E as ->. by apply IH.
Qed.

Lemma syncLoop_own (ids : list string) (i : nat) (s : Sync) :
  ordinaryIds ids → syncLoop i ids s = Some (ownLoop i ids s).
Proof.
  revert i s. induction ids as [|k ids IH]; intros i s H; [done|].
  apply Forall_cons in H as [Hk H]. simpl.
  rewrite syncStep_own by done. by apply IH.
Qed.

(** A refresh that runs to its end is the run on the own entries. *)
Lemma refresh_inv (v : OutputAreaView) (r : OutputAreaView * list Op) :
  OutputAreaView_onRefreshRequest v = Some r → r = ownRefresh v.
Proof.
  unfold OutputAreaView_onRefreshRequest, ownRefresh, collectItemIdMap,
    ownItemIdMap.
  destruct (collectLoop ∅ (widgets v)) as [m|] eqn:Em; [|done].
  apply collectLoop_inv in Em as ->.
  destruct (syncLoop 0 _ _) as [s1|] eqn:Es; [|done].
  apply syncLoop_inv in Es as ->. by intros [= <-].
Qed.

(** With ordinary ids in the model and no live view tagged [__proto__],
    the refresh runs to its end. *)
Lemma refresh_own (v : OutputAreaView) :
  ordinaryIds (outputItemIds (_area v)) →
  "__proto__" ∉ itemTags (widgets v) →
  OutputAreaView_onRefreshRequest v = Some (ownRefresh v).
Proof.
  intros Hids Htags.
  unfold OutputAreaView_onRefreshRequest, ownRefresh, collectItemIdMap,
    ownItemIdMap.
  rewrite collectLoop_own by done. by rewrite syncLoop_own.
Qed.

Lemma ordinaryIds_proto (ids : list string) :
  ordinaryIds ids → "__proto__" ∉ ids.
Proof.
  intros H Hin. eapply Forall_forall in H; [|exact Hin]. apply H.
  unfold objectPrototypeKeys. rewrite !elem_of_cons. tauto.
Qed.

(** Where the run ends early: a model id that names an inherited property
    is found by [in] without an entry, and a live view tagged [__proto__]
    replaces the prototype of the lookup. Neither run reconciles. *)
Example inherited_name_ends_refresh :
  OutputAreaView_onRefreshRequest inheritedIdView = None
  ∧ OutputAreaView_onRefreshRequest protoTagView = None
  ∧ ¬ reconciles inheritedIdView.
Proof.
  split_and!; [vm_compute; reflexivity..|].
  intros (r & Hr & _). vm_compute in Hr. discriminate Hr.
Qed.

(** ** Reconciliation (C1) *)

(** The reordering example of the specification: one move, nothing created
    or disposed. *)
Example reorder_is_one_move :
  OutputAreaView_onRefreshRequest reorderedView
  = Some (mkOutputAreaView "area" (mkOutputArea 1 false ["c"; "a"; "b"] false)
            [ItemView 2 "c"; ItemView 0 "a"; ItemView 1 "b"] false 3,
          [OpInsert 0 (ItemView 2 "c")]).
Proof. vm_compute. reflexivity. Qed.

(** The run on the own entries reconciles live children whose item views
    carry pairwise distinct ids. *)
Lemma ownRefresh_reconciled (v : OutputAreaView) :
  NoDup (itemTags (widgets v)) →
  allocated (nextUid v) (widgets v) →
  reconciled v (ownRefresh v)
  ∧ ∃ vs, widgets (ownRefresh v).1
          = vs ++ foreignWidgets (widgets v)
          ∧ widget_itemId <$> vs = Some <$> outputItemIds (_area v).
Proof.
  intros Hnd Hall.
  destruct (refresh_structure v Hnd Hall)
    as (vs & loopOps & stale & Hw & Hvs & Hops & Hloop & Hstale & Hkept & _).
  set (r := ownRefresh v) in *.
  set (ids := outputItemIds (_area v)) in *.
  assert (Hnodispose : ∀ w, OpDispose w ∉ loopOps).
  { intros w Hin. eapply Forall_forall in Hloop; [|exact Hin]. done. }
  assert (Hdisposed : ∀ w, OpDispose w ∈ r.2 ↔ w ∈ stale).
  { intros w. rewrite Hops, elem_of_app, list_elem_of_fmap. split.
    - intros [Hin|(w' & [= <-] & Hin)]; [by apply Hnodispose in Hin|done].
    - intros Hin. right. eauto. }
  split; [|by exists vs].
  unfold reconciled. fold r ids. split_and!.
  - rewrite Hw, itemTags_app, itemTags_foreign, app_nil_r.
    by apply itemTags_views.
  - intros w k Hin Hk. rewrite Hdisposed, Hstale. split.
    + intros (_ & k' & Hk' & Hout). congruence.
    + intros Hout. eauto.
  - intros w k Hin Hk Hkin. split_and!.
    + rewrite Hw. apply elem_of_app. left. by apply (Hkept w k).
    + rewrite Hdisposed, Hstale. intros (_ & k' & Hk' & Hout). congruence.
    + rewrite Hops, elem_of_app, list_elem_of_fmap.
      intros [Hc|(w' & [=] & _)].
      eapply Forall_forall in Hloop; [|exact Hc]. simpl in Hloop.
      destruct Hloop as (_ & _ & Hge & _).
      eapply Forall_forall in Hall; [|exact Hin]. simpl in Hall. lia.
  - intros Hids w k Hc Hk.
    rewrite Hops, elem_of_app, list_elem_of_fmap in Hc.
    destruct Hc as [Hc|(w' & [=] & _)].
    eapply Forall_forall in Hloop; [|exact Hc]. simpl in Hloop.
    destruct Hloop as (k' & Hk' & _ & _ & Hnone). specialize (Hnone Hids).
    assert (k' = k) as -> by congruence.
    intros (x & Hx & Hkx)%elem_of_itemTags.
    assert (ownItemIdMap (widgets v) !! k = Some x)
      by (by apply ownItemIdMap_spec).
    congruence.
  - intros Hperm. rewrite Hops. apply Forall_app. split.
    + assert (Hids : NoDup ids) by (by rewrite Hperm).
      eapply Forall_impl; [exact Hloop|]. intros [w|i w|w]; simpl; [|done..].
      intros (k & Hk & _ & Hkin & Hnone). specialize (Hnone Hids).
      rewrite Hperm in Hkin. apply elem_of_itemTags in Hkin as (x & Hx & Hkx).
      assert (ownItemIdMap (widgets v) !! k = Some x)
        by (by apply ownItemIdMap_spec).
      congruence.
    + assert (stale = []) as ->; [|by constructor].
      destruct stale as [|w stale']; [done|].
      destruct (proj1 (Hstale w) (list_elem_of_here _ _))
        as (Hin & k & Hk & Hout).
      exfalso. apply Hout. rewrite Hperm. apply elem_of_itemTags. eauto.
Qed.



(** ** Idempotence (C2) *)

(** The loop on children that are in place already: every id is claimed,
    nothing is inserted. *)
Lemma ownLoop_in_place (W vs : list Widget) (ids : list string)
    (m : gmap string Widget) :
  NoDup ids →
  widget_itemId <$> vs = Some <$> ids →
  vs `prefix_of` W →
  (∀ w k, w ∈ vs → widget_itemId w = Some k → m !! k = Some w) →
  ∀ rest done s,
    done ++ rest = ids →
    s_widgets s = W →
    (∀ k, s_itemIdMap s !! k = if decide (k ∈ done) then None else m !! k) →
    let s' := ownLoop (length done) rest s in
    s_widgets s' = W ∧ s_nextUid s' = s_nextUid s ∧ s_ops s' = s_ops s
    ∧ ∀ k, s_itemIdMap s' !! k = if decide (k ∈ ids) then None else m !! k.
Proof.
  intros Hnd Hvs [F ->] Hm. induction rest as [|id rest IH];
    intros done s Hids Hw Hmap; simpl.
  - rewrite app_nil_r in Hids. subst done. done.
  - assert (Hout : id ∉ done).
    { rewrite <-Hids in Hnd. apply NoDup_app in Hnd as (_ & Hd & _).
      intros Hin. apply (Hd id Hin), list_elem_of_here. }
    assert (Hi : ∃ w, vs !! length done = Some w ∧ widget_itemId w = Some id).
    { assert (H : (widget_itemId <$> vs) !! length done = Some (Some id)).
      { rewrite Hvs, <-Hids, list_lookup_fmap, lookup_app_r by lia.
        by rewrite Nat.sub_diag. }
      rewrite list_lookup_fmap in H.
      destruct (vs !! length done) as [w|]; simplify_eq/=. eauto. }
    destruct Hi as (w & Hi & Hk).
    assert (Hstep : ownStep (length done) id s
                    = mkSync (vs ++ F) (delete id (s_itemIdMap s))
                             (s_nextUid s) (s_ops s)).
    { unfold ownStep. rewrite Hmap, decide_False by done.
      rewrite (Hm w id) by (by eapply list_elem_of_lookup_2 || done).
      rewrite Hw, decide_True; [done|]. by apply lookup_app_l_Some. }
    rewrite Hstep.
    replace (S (length done)) with (length (done ++ [id]))
      by (rewrite length_app; simpl; lia).
    apply (IH (done ++ [id])
              (mkSync (vs ++ F) (delete id (s_itemIdMap s))
                      (s_nextUid s) (s_ops s)));
      simpl; [by rewrite <-app_assoc|done|].
    intros k. rewrite lookup_delete, Hmap.
    destruct (decide (id = k)) as [->|Hne].
    + rewrite (decide_True (P := k ∈ done ++ [k])); [done|].
      apply elem_of_app. right. by apply list_elem_of_singleton.
    + destruct (decide (k ∈ done)) as [Hd|Hd].
      * rewrite decide_True; [done|]. apply elem_of_app. by left.
      * rewrite decide_False; [done|].
        intros [?|?%list_elem_of_singleton]%elem_of_app; congruence.
Qed.

(** A view whose children are the views for the model's ids, in order,
    followed by foreign widgets only, is a fixed point of the run on the
    own entries. *)
Lemma refresh_in_place (u : OutputAreaView) (vs : list Widget) :
  NoDup (outputItemIds (_area u)) →
  widgets u = vs ++ foreignWidgets (widgets u) →
  widget_itemId <$> vs = Some <$> outputItemIds (_area u) →
  trustedClass u = trusted (_area u) →
  ownRefresh u = (u, []).
Proof.
  intros Hnd Hw Hvs Htr.
  set (ids := outputItemIds (_area u)) in *.
  set (F := foreignWidgets (widgets u)) in *.
  assert (Htags : itemTags (widgets u) = ids).
  { rewrite Hw, itemTags_app. unfold F.
    rewrite itemTags_foreign, app_nil_r. by apply itemTags_views. }
  assert (HndW : NoDup (itemTags (widgets u))) by (by rewrite Htags).
  destruct (ownLoop_in_place (widgets u) vs ids (ownItemIdMap (widgets u))
              Hnd Hvs) with (rest := ids) (done := @nil string)
              (s := mkSync (widgets u) (ownItemIdMap (widgets u))
                           (nextUid u) [])
    as (Hw1 & Hn1 & Hops1 & Hmap1); try done.
  { by exists F. }
  { intros w k Hin Hk. apply ownItemIdMap_spec; [done|]. split; [|done].
    rewrite Hw. apply elem_of_app. by left. }
  simpl in *.
  set (s1 := ownLoop 0 ids _) in *.
  assert (Hempty : s_itemIdMap s1 = ∅).
  { apply map_empty. intros k. rewrite Hmap1.
    destruct (decide (k ∈ ids)) as [|Hout]; [done|].
    destruct (ownItemIdMap (widgets u) !! k) as [w|] eqn:E; [|done].
    apply ownItemIdMap_tag in E as [Hin Hk]. exfalso. apply Hout.
    rewrite <-Htags. apply elem_of_itemTags. eauto. }
  unfold ownRefresh. fold ids s1.
  rewrite Hempty. unfold staleViews. rewrite map_to_list_empty. simpl.
  rewrite Hw1, Hn1, Hops1. simpl. rewrite <-Htr. by destruct u.
Qed.

(** The run on the own entries, twice: the outcome of the first run is a
    fixed point, with the model's ids as the tags of its item views. *)
Lemma ownRefresh_idempotent (v : OutputAreaView) :
  NoDup (outputItemIds (_area v)) →
  NoDup (itemTags (widgets v)) →
  allocated (nextUid v) (widgets v) →
  let v1 := (ownRefresh v).1 in
  ownRefresh v1 = (v1, [])
  ∧ _area v1 = _area v
  ∧ itemTags (widgets v1) = outputItemIds (_area v).
Proof.
  intros Hids Hnd Hall v1.
  destruct (refresh_structure v Hnd Hall)
    as (vs & _ & _ & Hw & Hvs & _). fold v1 in Hw.
  split_and!; [|done|].
  - assert (Hf : foreignWidgets (widgets v1) = foreignWidgets (widgets v)).
    { rewrite Hw. unfold foreignWidgets at 1. rewrite filter_app.
      assert (Hnone : filter (λ w, widget_itemId w = None) vs = []).
      { clear -Hvs. revert Hvs. generalize (outputItemIds (_area v)).
        induction vs as [|w vs IH]; intros [|k ids] H; try done.
        injection H as Hw Hrest. rewrite filter_cons_False by congruence.
        by eapply IH. }
      rewrite Hnone. simpl. unfold foreignWidgets.
      rewrite list_filter_filter. apply list_filter_iff. tauto. }
    apply (refresh_in_place v1 vs); [done| |done|done].
    by rewrite Hf.
  - rewrite Hw, itemTags_app, itemTags_foreign, app_nil_r.
    by apply itemTags_views.
Qed.



(** ** Foreign children (C10) *)











(** ** The mime bundle of an item (C3) *)

Lemma formatError_spec (e : ErrorOutput) :
  (traceback e ≠ EmptyString → formatError e = traceback e)
  ∧ (traceback e = EmptyString →
     formatError e = String.append (ename e) (String.append ": " (evalue e))).
Proof. unfold formatError. case_decide; split; congruence. Qed.

(** C3: the mime bundle and the metadata bundle derived from an item, by
    kind: [execute_result] and [display_data] pass their [data] and
    [metadata] through; [stream] gives one key, made from the stream name,
    that carries the text, and no metadata; [error] gives one key that
    carries the traceback if there is one, else ["<ename>: <evalue>"], and no
    metadata; any other kind gives the empty bundle and no metadata. *)
Theorem bundle_by_kind (item : OutputItem) :
  match item_variant item with
  | ExecuteResultOutput data metadata _ =>
      getData item = data ∧ getMetadata item = metadata
  | DisplayDataOutput data metadata =>
      getData item = data ∧ getMetadata item = metadata
  | StreamOutput name text =>
      getData item
      = [(String.append "application/vnd.jupyter." name, JString text)]
      ∧ length (getData item) = 1
      ∧ getMetadata item = []
  | ErrorOutputItem e =>
      getData item
      = [("application/vnd.jupyter.stderr", JString (formatError e))]
      ∧ length (getData item) = 1
      ∧ (traceback e ≠ EmptyString → formatError e = traceback e)
      ∧ (traceback e = EmptyString →
         formatError e
         = String.append (ename e) (String.append ": " (evalue e)))
      ∧ getMetadata item = []
  | UnrecognizedOutput _ =>
      getData item = [] ∧ getMetadata item = []
  end.
Proof.
  unfold getData, getMetadata.
  destruct (item_variant item) as [d m c|d m|n t|e|t]; try done.
  pose proof (formatError_spec e) as [? ?]. by split_and!.
Qed.

Example error_without_traceback :
  getData (mkOutputItem 3 false
             (ErrorOutputItem (mkErrorOutput "NameError" "x is not defined"
                                 EmptyString)))
  = [("application/vnd.jupyter.stderr",
      JString "NameError: x is not defined")].
Proof. reflexivity. Qed.

(** ** The renderer of an item view (C4, C5) *)

Lemma setLayoutWidget_fresh (r' old : IRenderer) :
  r_uid old ≠ r_uid r' →
  setLayoutWidget (Some r') (Some old) = (Some r', [RDispose (r_uid old)]).
Proof.
  intros Hne. unfold setLayoutWidget. simpl.
  rewrite decide_False; [done|]. intros [=]. done.
Qed.

Lemma setLayoutWidget_clear (old : option IRenderer) :
  setLayoutWidget None old
  = (None, match old with Some r => [RDispose (r_uid r)] | None => [] end).
Proof. by destruct old. Qed.

Lemma setLayoutWidget_first (r' : IRenderer) :
  setLayoutWidget (Some r') None = (Some r', []).
Proof. done. Qed.

(** C4: on an item refresh with a renderer [old] in the layout: if the
    recorded mime type equals the newly preferred one, [old] itself renders
    the new model, nothing is created and nothing is disposed; if a mime
    type is preferred and differs from the recorded one, a new renderer for
    that mime type is created, renders the model and takes the place of
    [old], which is disposed. *)
Theorem refresh_reuses_or_replaces (v : OutputItemView) (old : IRenderer) :
  layout_widget v = Some old →
  let r := OutputItemView_onRefreshRequest v in
  let model := refreshModel v in
  let mimeType := refreshMimeType v in
  (dataset_mimeType v = Some mimeType →
     layout_widget r.1 = Some (renderModel old model)
     ∧ r_uid (renderModel old model) = r_uid old
     ∧ r.2 = [RRender (r_uid old) model]
     ∧ item_nextUid r.1 = item_nextUid v)
  ∧ (mimeType ≠ EmptyString → dataset_mimeType v ≠ Some mimeType →
     r_uid old < item_nextUid v →
     ∃ new,
       layout_widget r.1 = Some new
       ∧ r_uid new = item_nextUid v ∧ r_uid new ≠ r_uid old
       ∧ r_mimeType new = mimeType
       ∧ r_model new = Some model
       ∧ r.2 = [RCreate (r_uid new) mimeType; RRender (r_uid new) model;
                RDispose (r_uid old)]
       ∧ dataset_mimeType r.1 = Some mimeType).
Proof.
  intros Hold r model mimeType. subst r.
  unfold OutputItemView_onRefreshRequest.
  fold (refreshModel v) (refreshMimeType v). fold model mimeType.
  rewrite Hold. split.
  - intros Hsame. rewrite decide_True by done. simpl. by split_and!.
  - intros Hmime Hdiff Hfresh. rewrite decide_False by done.
    rewrite decide_False by done.
    rewrite setLayoutWidget_fresh by (simpl; lia). simpl.
    eexists. split_and!; try done. simpl. lia.
Qed.

(** C4 on a stream item whose text grew: the renderer [0] renders again;
    and on the same item when the recorded mime type is another one: a new
    renderer [1] replaces the renderer [0]. *)
Lemma refresh_reuses_or_replaces_witness :
  (OutputItemView_onRefreshRequest
     (streamView "hi there" "application/vnd.jupyter.stdout")).2
  = [RRender 0 (refreshModel
                  (streamView "hi there" "application/vnd.jupyter.stdout"))]
  ∧ ∃ new,
      layout_widget (OutputItemView_onRefreshRequest
                       (streamView "hi" "text/plain")).1 = Some new
      ∧ r_uid new = 1.
Proof.
  split.
  - apply (refresh_reuses_or_replaces
             (streamView "hi there" "application/vnd.jupyter.stdout")
             (mkRenderer 0 "application/vnd.jupyter.stdout" true None)
             eq_refl).
    reflexivity.
  - destruct (proj2 (refresh_reuses_or_replaces
                       (streamView "hi" "text/plain")
                       (mkRenderer 0 "text/plain" true None) eq_refl))
      as (new & Hnew & Huid & _).
    + vm_compute. discriminate.
    + vm_compute. discriminate.
    + simpl. lia.
    + exists new. by split.
Defined.

Lemma rendererBound_reachable (v : OutputItemView) :
  reachableItemView v → rendererBound v.
Proof.
  induction 1 as [k rm n|state v _ IH|v _ IH].
  - intros r [=].
  - unfold OutputItemView_onStoreChanged. by case_decide.
  - unfold OutputItemView_onRefreshRequest.
    fold (refreshModel v) (refreshMimeType v).
    destruct (layout_widget v) as [old|] eqn:Hold.
    + destruct (IH old Hold) as (Hrec & Hne & Hlt).
      case_decide as Hsame.
      * intros r [= <-]. simpl. split_and!; [|done..]. congruence.
      * case_decide as Hmime.
        -- rewrite setLayoutWidget_clear. by intros r [=].
        -- rewrite setLayoutWidget_fresh by (simpl; lia).
           intros r [= <-]. simpl. split_and!; [done..|lia].
    + case_decide as Hmime.
      * rewrite setLayoutWidget_clear. by intros r [=].
      * rewrite setLayoutWidget_first.
        intros r [= <-]. simpl. split_and!; [done..|lia].
Qed.

(** C5: on an item refresh for which the registry resolves no preferred
    mime type, the renderer that was in the layout (if any) is disposed, the
    layout ends without a widget, and no renderer is created or rendered
    into. This is for the states in which the mime type recorded on the
    node is not the empty string when the layout holds a renderer, as it is
    in every state an item view reaches ([rendererBound_reachable]): the
    in-place test reads that record. *)
Theorem refresh_without_mime_type (v : OutputItemView) :
  preferredMimeType (rendermime v) (getData (_item v))
                    (negb (item_trusted (_item v))) = None →
  (∀ old, layout_widget v = Some old →
          dataset_mimeType v ≠ Some EmptyString) →
  let r := OutputItemView_onRefreshRequest v in
  layout_widget r.1 = None
  ∧ r.2 = match layout_widget v with
          | Some old => [RDispose (r_uid old)]
          | None => []
          end
  ∧ item_nextUid r.1 = item_nextUid v
  ∧ dataset_mimeType r.1 = Some EmptyString.
Proof.
  intros Hnone Hrec r. subst r.
  unfold OutputItemView_onRefreshRequest. rewrite Hnone. simpl.
  destruct (layout_widget v) as [old|] eqn:Hold.
  - rewrite decide_False by (by apply (Hrec old)).
    by rewrite setLayoutWidget_clear.
  - by rewrite setLayoutWidget_clear.
Qed.

Example clearedItemView_has_renderer :
  r_uid <$> layout_widget (clearedItemView sampleState) = Some 0
  ∧ _item (clearedItemView sampleState) = emptyItem.
Proof. split; vm_compute; reflexivity. Qed.

(** C5 at an item view that shows the renderer [0] for a stream while its
    item is the empty default: the renderer is disposed and nothing is
    shown. *)
Lemma refresh_without_mime_type_witness :
  (OutputItemView_onRefreshRequest orphanedView).2 = [RDispose 0]
  ∧ layout_widget (OutputItemView_onRefreshRequest orphanedView).1 = None.
Proof.
  destruct (refresh_without_mime_type orphanedView) as (Hw & Hops & _).
  - vm_compute. reflexivity.
  - intros old _. vm_compute. discriminate.
  - split; [exact Hops|exact Hw].
Defined.

(** Outside those states the in-place test comes first: with the empty
    string recorded on the node, a renderer in the layout is kept and
    rendered into. *)
Example empty_record_rerenders :
  let v := mkOutputItemView "item" firstKeyRenderMime emptyItem
             (Some (mkRenderer 0 "text/plain" true None))
             (Some "display_data") (Some EmptyString) false 1 in
  (OutputItemView_onRefreshRequest v).2 = [RRender 0 (refreshModel v)]
  ∧ r_uid <$> layout_widget (OutputItemView_onRefreshRequest v).1 = Some 0.
Proof. split; vm_compute; reflexivity. Qed.

(** ** The store-change handlers (C6, C9) *)

Lemma OutputAreaView_onStoreChanged_area (state : OutputState)
    (v : OutputAreaView) :
  let r := OutputAreaView_onStoreChanged state v in
  _area r.1 = lookupArea state (areaId v) ∧ areaId r.1 = areaId v.
Proof. unfold OutputAreaView_onStoreChanged. by case_decide. Qed.

Lemma OutputItemView_onStoreChanged_item (state : OutputState)
    (v : OutputItemView) :
  let r := OutputItemView_onStoreChanged state v in
  _item r.1 = lookupItem state (itemId v) ∧ itemId r.1 = itemId v.
Proof. unfold OutputItemView_onStoreChanged. by case_decide. Qed.

(** C6: an area id or item id that is absent from the store's tables
    resolves to the singleton empty default, which is what the view holds
    after its change handler ran: an area without item ids, untrusted; a
    [display_data] item with an empty bundle and empty metadata. A new view
    holds the same defaults. *)
Theorem missing_id_resolves_to_default (state : OutputState)
    (va : OutputAreaView) (vi : OutputItemView) :
  (outputAreaTable state !! areaId va = None →
     lookupArea state (areaId va) = emptyArea
     ∧ _area (OutputAreaView_onStoreChanged state va).1 = emptyArea)
  ∧ (outputItemTable state !! itemId vi = None →
     lookupItem state (itemId vi) = emptyItem
     ∧ _item (OutputItemView_onStoreChanged state vi).1 = emptyItem)
  ∧ (∀ k n, _area (OutputAreaView_new k n) = emptyArea)
  ∧ (∀ k rm n, _item (OutputItemView_new k rm n) = emptyItem)
  ∧ outputItemIds emptyArea = [] ∧ trusted emptyArea = false
  ∧ item_type emptyItem = "display_data"
  ∧ getData emptyItem = [] ∧ getMetadata emptyItem = [].
Proof.
  split_and!; try done.
  - intros Hnone.
    destruct (OutputAreaView_onStoreChanged_area state va) as [-> _].
    unfold lookupArea. by rewrite Hnone.
  - intros Hnone.
    destruct (OutputItemView_onStoreChanged_item state vi) as [-> _].
    unfold lookupItem. by rewrite Hnone.
Qed.

(** C6 at a view that held an area which the store no longer has. *)
Lemma missing_id_resolves_to_default_witness :
  _area (OutputAreaView_onStoreChanged (mkOutputState ∅ ∅) reorderedView).1
  = emptyArea
  ∧ _item (OutputItemView_onStoreChanged (mkOutputState ∅ ∅)
             (streamView "hi" "text/plain")).1
    = emptyItem.
Proof.
  destruct (missing_id_resolves_to_default (mkOutputState ∅ ∅) reorderedView
              (streamView "hi" "text/plain")) as (Ha & Hi & _).
  split; [apply Ha|apply Hi]; reflexivity.
Defined.

(** C9: the change handlers detect a change by the identity of the object:
    when the table holds, for the view's id, the very object the view holds,
    the handler returns the view as it is and asks for no refresh; in every
    other case it takes the new object and asks for a refresh. Two objects
    at different addresses are different objects, whatever their contents:
    a view holding an area (an item) that is equal in all its fields to the
    one in the table, but another object, is refreshed. *)
Theorem change_detection_by_identity (state : OutputState)
    (va : OutputAreaView) (vi : OutputItemView) :
  let ra := OutputAreaView_onStoreChanged state va in
  let ri := OutputItemView_onStoreChanged state vi in
  (_area va = lookupArea state (areaId va) → ra = (va, false))
  ∧ (_area va ≠ lookupArea state (areaId va) →
     ra.2 = true ∧ _area ra.1 = lookupArea state (areaId va))
  ∧ (area_ref (_area va) ≠ area_ref (lookupArea state (areaId va)) →
     ra.2 = true)
  ∧ (_item vi = lookupItem state (itemId vi) → ri = (vi, false))
  ∧ (_item vi ≠ lookupItem state (itemId vi) →
     ri.2 = true ∧ _item ri.1 = lookupItem state (itemId vi))
  ∧ (item_ref (_item vi) ≠ item_ref (lookupItem state (itemId vi)) →
     ri.2 = true).
Proof.
  unfold OutputAreaView_onStoreChanged, OutputItemView_onStoreChanged.
  split_and!.
  - intros H. by rewrite decide_True.
  - intros H. by rewrite decide_False.
  - intros H. rewrite decide_False; [done|]. congruence.
  - intros H. by rewrite decide_True.
  - intros H. by rewrite decide_False.
  - intros H. rewrite decide_False; [done|]. congruence.
Qed.

(** C9 at a view that holds a copy of the table's area at another address:
    equal in every field, yet a refresh is asked for. *)
Lemma change_detection_by_identity_witness :
  let copy := mkOutputArea 9 true ["a"; "b"] false in
  let v := mkOutputAreaView "area" copy [] true 0 in
  deepEqualArea (_area v) (lookupArea sampleState (areaId v))
  ∧ (OutputAreaView_onStoreChanged sampleState v).2 = true.
Proof.
  intros copy v. split.
  - vm_compute. by split_and!.
  - apply (change_detection_by_identity sampleState v
             (streamView "hi" "text/plain")).
    vm_compute. discriminate.
Defined.

(** ** Reading the latest snapshot (C8) *)

Section LatestSnapshot.
Variable reducer : OutputState → OutputAction → OutputState.
Variable emits : OutputState → OutputAction → bool.

(** The store fires [changed] for every dispatch that alters the
    snapshot. *)
Hypothesis emits_when_altered :
  ∀ state action, emits state action = false → reducer state action = state.

Lemma areaTurn_sync (events : list TurnEvent) (state : OutputState)
    (v : OutputAreaView) (pending : bool) :
  changedFired reducer emits events state = true ∨ areaInSync state v →
  let c := foldl (areaTurnStep reducer emits) (state, v, pending) events in
  areaInSync c.1.1 c.1.2.
Proof.
  revert state v pending.
  induction events as [|[action|] events IH]; intros state v pending H.
  - destruct H as [H|H]; [done|exact H].
  - simpl in *. destruct (emits state action) eqn:E.
    + pose proof (OutputAreaView_onStoreChanged_area
                    (reducer state action) v) as [Ha Hid].
      destruct (OutputAreaView_onStoreChanged (reducer state action) v)
        as [v' asked]. simpl in *.
      apply IH. right. unfold areaInSync. by rewrite Hid.
    + rewrite (emits_when_altered state action E) in *. by apply IH.
  - simpl in *. by apply IH.
Qed.

Lemma itemTurn_sync (events : list TurnEvent) (state : OutputState)
    (v : OutputItemView) (pending : bool) :
  changedFired reducer emits events state = true ∨ itemInSync state v →
  let c := foldl (itemTurnStep reducer emits) (state, v, pending) events in
  itemInSync c.1.1 c.1.2.
Proof.
  revert state v pending.
  induction events as [|[action|] events IH]; intros state v pending H.
  - destruct H as [H|H]; [done|exact H].
  - simpl in *. destruct (emits state action) eqn:E.
    + pose proof (OutputItemView_onStoreChanged_item
                    (reducer state action) v) as [Ha Hid].
      destruct (OutputItemView_onStoreChanged (reducer state action) v)
        as [v' asked]. simpl in *.
      apply IH. right. unfold itemInSync. by rewrite Hid.
    + rewrite (emits_when_altered state action E) in *. by apply IH.
  - simpl in *. by apply IH.
Qed.

(** Views the store has notified: for every sequence of dispatches and
    refresh requests within one turn, if the store fired a change
    notification during the turn, or the view held the store's current
    object when the turn began, then the area (the item) that the refresh
    handler reads from the view at the end of the turn is the object that
    [store.state] holds for the view's id at that time (the empty default
    if it holds none), not the one of an earlier dispatch. *)
Lemma notified_view_reads_latest_state (events : list TurnEvent)
    (state : OutputState) (va : OutputAreaView) (vi : OutputItemView) :
  (changedFired reducer emits events state = true ∨ areaInSync state va →
   areaRefreshReadsLatest reducer emits events state va
   ∧ _area (areaTurn reducer emits events state va).1.2
     = lookupArea (areaTurn reducer emits events state va).1.1
                  (areaId (areaTurn reducer emits events state va).1.2))
  ∧ (changedFired reducer emits events state = true ∨ itemInSync state vi →
     itemRefreshReadsLatest reducer emits events state vi
     ∧ _item (itemTurn reducer emits events state vi).1.2
       = lookupItem (itemTurn reducer emits events state vi).1.1
                    (itemId (itemTurn reducer emits events state vi).1.2)).
Proof.
  split; intros H.
  - pose proof (areaTurn_sync events state va false H) as Hs.
    split; [by intros _|exact Hs].
  - pose proof (itemTurn_sync events state vi false H) as Hs.
    split; [by intros _|exact Hs].
Qed.
End LatestSnapshot.

Lemma sampleEmits_when_altered (state : OutputState) (action : OutputAction) :
  sampleEmits state action = false → sampleReducer state action = state.
Proof.
  unfold sampleEmits. intros H%bool_decide_eq_false.
  by destruct (decide (sampleReducer state action = state)).
Qed.

(** In the sample store: two clears are dispatched in one turn to a store
    whose area a new view does not hold yet; at the refresh the view holds
    the area of the last snapshot, not the one the first clear made. *)
Example two_clears_read_last_snapshot :
  let events := [EvDispatch (ClearOutputsAction "area" false);
                 EvDispatch (ClearOutputsAction "area" false)] in
  let c := areaTurn sampleReducer sampleEmits events sampleState
             (OutputAreaView_new "area" 0) in
  (c.2 = true ∧ _area c.1.2 = lookupArea c.1.1 (areaId c.1.2))
  ∧ _area c.1.2
    ≠ lookupArea (sampleReducer sampleState (ClearOutputsAction "area" false))
                 "area".
Proof.
  intros events c. split_and!.
  - vm_compute. reflexivity.
  - apply (notified_view_reads_latest_state sampleReducer sampleEmits
             sampleEmits_when_altered events sampleState
             (OutputAreaView_new "area" 0) (streamView "hi" "text/plain")).
    left. vm_compute. reflexivity.
  - vm_compute. discriminate.
Qed.

(** C8, the code on views that the store has not notified yet: the store
    holds the area [area] and the item [a]; a view is constructed for the
    area (for the item, as the refresh of the area view does for a new id)
    and is attached, so that [onBeforeAttach] requests a refresh. The
    constructor does not read [store.state]: at the refresh, alone in its
    turn or next to a dispatch that leaves the snapshot as it is, the view
    holds the empty default and not the object of [store.state], so the
    area view builds no item view and the item view shows nothing. The
    change handler on the same view and snapshot binds the stored
    object. *)
Theorem unnotified_view_reads_default :
  let va := OutputAreaView_new "area" 0 in
  let vi := OutputItemView_new "a" firstKeyRenderMime 0 in
  let quiet := [EvRefresh; EvDispatch (SetOutputDataAction "zz" None None)] in
  let ca := areaTurn sampleReducer sampleEmits [EvRefresh] sampleState va in
  let ci := itemTurn sampleReducer sampleEmits [EvRefresh] sampleState vi in
  (ca.2 = true
   ∧ _area ca.1.2 = emptyArea
   ∧ lookupArea ca.1.1 (areaId ca.1.2) = mkOutputArea 1 true ["a"; "b"] false
   ∧ OutputAreaView_onRefreshRequest ca.1.2 = Some (ca.1.2, [])
   ∧ ¬ areaRefreshReadsLatest sampleReducer sampleEmits [EvRefresh]
         sampleState va
   ∧ ¬ areaRefreshReadsLatest sampleReducer sampleEmits quiet sampleState va)
  ∧ (ci.2 = true
     ∧ _item ci.1.2 = emptyItem
     ∧ lookupItem ci.1.1 (itemId ci.1.2)
       = mkOutputItem 1 true (StreamOutput "stdout" "hi")
     ∧ layout_widget (OutputItemView_onRefreshRequest ci.1.2).1 = None
     ∧ ¬ itemRefreshReadsLatest sampleReducer sampleEmits [EvRefresh]
           sampleState vi)
  ∧ (_area (OutputAreaView_onStoreChanged sampleState va).1
     = lookupArea sampleState "area"
     ∧ _item (OutputItemView_onStoreChanged sampleState vi).1
       = lookupItem sampleState "a").
Proof.
  intros va vi quiet ca ci. split_and!; try (vm_compute; reflexivity).
  - intros H. specialize (H eq_refl). vm_compute in H. discriminate H.
  - intros H. specialize (H eq_refl). vm_compute in H. discriminate H.
  - intros H. specialize (H eq_refl). vm_compute in H. discriminate H.
Qed.

(** ** Conflation of refresh requests (C7) *)

Lemma refreshExecutions_app (q1 q2 : MessageQueue) :
  refreshExecutions (q1 ++ q2) = refreshExecutions q1 ++ refreshExecutions q2.
Proof. unfold refreshExecutions. by rewrite filter_app, fmap_app. Qed.

Lemma executionsOf_app (this : nat) (q1 q2 : MessageQueue) :
  executionsOf this (q1 ++ q2) = executionsOf this q1 + executionsOf this q2.
Proof.
  unfold executionsOf. by rewrite refreshExecutions_app, filter_app, length_app.
Qed.

Lemma executionsOf_zero (this : nat) (queue : MessageQueue) :
  this ∉ refreshExecutions queue → executionsOf this queue = 0.
Proof.
  intros Hout. unfold executionsOf.
  destruct (filter _ _) as [|n l] eqn:E; [done|].
  assert (Hn : n ∈ filter (λ n, n = this) (refreshExecutions queue))
    by (rewrite E; apply list_elem_of_here).
  apply list_elem_of_filter in Hn as [-> Hn]. done.
Qed.

Lemma refreshExecutions_single (n : nat) :
  refreshExecutions [(n, RefreshRequest)] = [n].
Proof. reflexivity. Qed.

Lemma executionsOf_single (this n : nat) :
  executionsOf this [(n, RefreshRequest)] = if decide (n = this) then 1 else 0.
Proof.
  unfold executionsOf. rewrite refreshExecutions_single, filter_cons.
  by destruct (decide (n = this)).
Qed.

(** A request for a node that has one pending leaves the queue as it is. *)
Lemma refresh_pending (this : nat) (queue : MessageQueue) :
  (this, RefreshRequest) ∈ queue → refresh this queue = queue.
Proof.
  intros Hin. unfold refresh, postMessage. simpl.
  assert (H : existsb (λ p : nat * Message,
                bool_decide (p.1 = this)
                && bool_decide (msg_type p.2 = "refresh-request")
                && isConflatable p.2) queue = true).
  { apply existsb_exists. exists (this, RefreshRequest). split.
    - by apply list_elem_of_In.
    - simpl. by rewrite bool_decide_true. }
  by rewrite H.
Qed.

Lemma refresh_other (this other : nat) (queue : MessageQueue) :
  this ≠ other →
  executionsOf this (refresh other queue) = executionsOf this queue
  ∧ ((this, RefreshRequest) ∈ queue → (this, RefreshRequest) ∈ refresh other queue)
  ∧ (this ∉ refreshExecutions queue →
     this ∉ refreshExecutions (refresh other queue)).
Proof.
  intros Hne. unfold refresh, postMessage. simpl.
  destruct (existsb _ queue); [done|].
  rewrite executionsOf_app, refreshExecutions_app. split_and!.
  - rewrite executionsOf_single, decide_False by done. lia.
  - intros Hin. apply elem_of_app. by left.
  - rewrite refreshExecutions_single.
    intros Hout [Hin|Hin%list_elem_of_singleton]%elem_of_app; done.
Qed.

Lemma refresh_first (this : nat) (queue : MessageQueue) :
  this ∉ refreshExecutions queue →
  refresh this queue = queue ++ [(this, RefreshRequest)].
Proof.
  intros Hout. unfold refresh, postMessage. simpl.
  destruct (existsb _ queue) eqn:E; [|done]. exfalso. apply Hout.
  apply existsb_exists in E as ([h m] & Hin%list_elem_of_In & Hp). simpl in Hp.
  apply andb_prop in Hp as [Hp _]. apply andb_prop in Hp as [Hh Ht].
  apply bool_decide_eq_true in Hh, Ht. subst h.
  unfold refreshExecutions. apply list_elem_of_fmap. exists (this, m).
  split; [done|]. by apply list_elem_of_filter.
Qed.

Lemma refreshAll_cons (n : nat) (nodes : list nat) (queue : MessageQueue) :
  refreshAll (n :: nodes) queue = refreshAll nodes (refresh n queue).
Proof. reflexivity. Qed.

Lemma refreshAll_pending (nodes : list nat) (this : nat) (queue : MessageQueue) :
  (this, RefreshRequest) ∈ queue →
  executionsOf this (refreshAll nodes queue) = executionsOf this queue.
Proof.
  revert queue. induction nodes as [|n nodes IH]; intros queue Hin; [done|].
  rewrite refreshAll_cons. destruct (decide (this = n)) as [<-|Hne].
  - rewrite refresh_pending by done. by apply IH.
  - destruct (refresh_other this n queue Hne) as (Hc & Hp & _).
    rewrite IH by (by apply Hp). exact Hc.
Qed.

(** C7: whatever refresh requests are made in one turn, for whichever
    nodes and however often, a node that had no refresh request pending
    runs [_onRefreshRequest] once when the queue is delivered if it was
    asked to refresh at all, and not at all otherwise: a request made while
    one is pending for the node is not queued. *)
Theorem refresh_requests_collapse (nodes : list nat) (this : nat)
    (queue : MessageQueue) :
  this ∉ refreshExecutions queue →
  executionsOf this (refreshAll nodes queue)
  = if decide (this ∈ nodes) then 1 else 0.
Proof.
  revert queue. induction nodes as [|n nodes IH]; intros queue Hout.
  - rewrite decide_False by apply not_elem_of_nil.
    by apply executionsOf_zero.
  - rewrite refreshAll_cons. destruct (decide (this = n)) as [<-|Hne].
    + rewrite decide_True by apply list_elem_of_here.
      rewrite refresh_first by done.
      rewrite refreshAll_pending.
      * rewrite executionsOf_app, executionsOf_zero by done.
        by rewrite executionsOf_single, decide_True.
      * apply elem_of_app. right. apply list_elem_of_here.
    + destruct (refresh_other this n queue Hne) as (_ & _ & Hstill).
      rewrite IH by (by apply Hstill).
      destruct (decide (this ∈ nodes)) as [Hin|Hnin].
      * rewrite decide_True; [done|]. by apply list_elem_of_further.
      * rewrite decide_False; [done|].
        intros [?|?]%elem_of_cons; congruence.
Qed.

(** C7 for three requests of the node [4] among requests of other nodes. *)
Lemma refresh_requests_collapse_witness :
  executionsOf 4 (refreshAll [4; 2; 4; 9; 4] []) = 1.
Proof.
  apply (refresh_requests_collapse [4; 2; 4; 9; 4] 4 []).
  apply not_elem_of_nil.
Defined.

(* ===================================================================== *)
(** * Part III: further properties of the views                           *)
(* ===================================================================== *)

(** ** The first refresh of an area view *)

Lemma insertWidget_append (ps : list Widget) (x : Widget) :
  x ∉ ps → insertWidget (length ps) x ps = ps ++ [x].
Proof.
  intros Hx. pose proof (place_widget ps [] x Hx) as H.
  rewrite app_nil_r in H.
  rewrite decide_False in H; [exact H|].
  rewrite lookup_ge_None_2 by lia. done.
Qed.

Lemma newViewsFrom_allocated (n : nat) (ids : list string) :
  Forall (λ w, n ≤ widget_uid w < n + length ids) (newViewsFrom n ids).
Proof.
  revert n. induction ids as [|k ids IH]; intros n; simpl; [constructor|].
  constructor; [simpl; lia|].
  eapply Forall_impl; [apply IH|]. simpl. intros w Hw. lia.
Qed.

Lemma ownLoop_new_views (ids : list string) (ps : list Widget) (n : nat)
    (ops : list Op) :
  allocated n ps →
  ownLoop (length ps) ids (mkSync ps ∅ n ops)
  = mkSync (ps ++ newViewsFrom n ids) ∅ (n + length ids)
           (ops ++ newViewOpsFrom (length ps) n ids).
Proof.
  revert ps n ops. induction ids as [|k ids IH]; intros ps n ops Hall; simpl.
  - by rewrite !app_nil_r, Nat.add_0_r.
  - assert (Hnew : ItemView n k ∉ ps).
    { intros Hin. eapply Forall_forall in Hall; [|exact Hin]. simpl in Hall. lia. }
    assert (Hstep : ownStep (length ps) k (mkSync ps ∅ n ops)
                    = mkSync (ps ++ [ItemView n k]) ∅ (S n)
                        (ops ++ [OpCreate (ItemView n k);
                                 OpInsert (length ps) (ItemView n k)])).
    { unfold ownStep. simpl. rewrite lookup_empty.
      rewrite decide_False by (rewrite lookup_ge_None_2 by lia; done).
      rewrite insertWidget_append by done. by rewrite <-app_assoc. }
    rewrite Hstep.
    replace (S (length ps)) with (length (ps ++ [ItemView n k]))
      by (rewrite length_app; simpl; lia).
    rewrite IH.
    + f_equal; [by rewrite <-app_assoc|lia|by rewrite <-app_assoc].
    + apply Forall_app. split.
      * eapply Forall_impl; [exact Hall|]. simpl. intros w Hw. lia.
      * repeat constructor.
Qed.

(** The run on the own entries from a view without children. *)
Lemma ownRefresh_builds_views (v : OutputAreaView) :
  widgets v = [] →
  ownRefresh v
  = (mkOutputAreaView (areaId v) (_area v)
       (newViewsFrom (nextUid v) (outputItemIds (_area v)))
       (trusted (_area v))
       (nextUid v + length (outputItemIds (_area v))),
     newViewOpsFrom 0 (nextUid v) (outputItemIds (_area v)))
  ∧ itemTags (newViewsFrom (nextUid v) (outputItemIds (_area v)))
    = outputItemIds (_area v)
  ∧ NoDup (newViewsFrom (nextUid v) (outputItemIds (_area v))).
Proof.
  intros Hw. split_and!.
  - unfold ownRefresh. rewrite Hw.
    change (ownItemIdMap []) with (∅ : gmap string Widget).
    pose proof (ownLoop_new_views (outputItemIds (_area v)) [] (nextUid v) [])
      as Hloop.
    simpl in Hloop. rewrite Hloop by constructor. simpl.
    unfold staleViews. by rewrite map_to_list_empty.
  - generalize (nextUid v). induction (outputItemIds (_area v)) as [|k ids IH];
      intros n; [done|].
    change (newViewsFrom n (k :: ids))
      with (ItemView n k :: newViewsFrom (S n) ids).
    rewrite itemTags_cons. simpl. by rewrite IH.
  - generalize (nextUid v). induction (outputItemIds (_area v)) as [|k ids IH];
      intros n; simpl; [constructor|].
    apply NoDup_cons. split; [|apply IH].
    intros Hin. pose proof (newViewsFrom_allocated (S n) ids) as Hall.
    eapply Forall_forall in Hall; [|exact Hin]. simpl in Hall. lia.
Qed.

(** Without entries in the lookup, the loop ends early at the first
    inherited name of the model. *)
Lemma syncLoop_inherited (ids : list string) (i : nat) (s : Sync) :
  s_itemIdMap s = ∅ → ¬ ordinaryIds ids → syncLoop i ids s = None.
Proof.
  revert i s. induction ids as [|k ids IH]; intros i s Hm Hids.
  - destruct Hids. constructor.
  - simpl. unfold syncStep. rewrite Hm, lookup_empty.
    destruct (decide (k ∈ objectPrototypeKeys)) as [Hk|Hk]; [done|].
    assert (Hrest : ¬ ordinaryIds ids).
    { intros H. apply Hids. by constructor. }
    case_decide; by apply IH.
Qed.

(** X1: the refresh of an area view without children, when the ids of the
    model are ordinary, makes one new view per id of the model, in model
    order and with the identities the allocator gives out one after the
    other; it creates and inserts each of them and disposes nothing,
    whether or not the model repeats an id. When the model lists an
    inherited name, the refresh does not run to its end. *)
Theorem first_refresh_builds_views (v : OutputAreaView) :
  widgets v = [] →
  (ordinaryIds (outputItemIds (_area v)) →
   OutputAreaView_onRefreshRequest v
   = Some (mkOutputAreaView (areaId v) (_area v)
             (newViewsFrom (nextUid v) (outputItemIds (_area v)))
             (trusted (_area v))
             (nextUid v + length (outputItemIds (_area v))),
           newViewOpsFrom 0 (nextUid v) (outputItemIds (_area v))))
  ∧ (¬ ordinaryIds (outputItemIds (_area v)) →
     OutputAreaView_onRefreshRequest v = None)
  ∧ itemTags (newViewsFrom (nextUid v) (outputItemIds (_area v)))
    = outputItemIds (_area v)
  ∧ NoDup (newViewsFrom (nextUid v) (outputItemIds (_area v))).
Proof.
  intros Hw. destruct (ownRefresh_builds_views v Hw) as (Hr & Htags & Hnd).
  split_and!; [| |done..].
  - intros Hids. rewrite refresh_own, Hr; [done..|].
    rewrite Hw. apply not_elem_of_nil.
  - intros Hids. unfold OutputAreaView_onRefreshRequest. rewrite Hw. simpl.
    by rewrite syncLoop_inherited.
Qed.

(** X1 at a new view under the model [a, b], and at one whose model lists
    [constructor]. *)
Lemma first_refresh_builds_views_witness :
  (fst <$> OutputAreaView_onRefreshRequest freshView)
  = Some (mkOutputAreaView "area" (mkOutputArea 1 true ["a"; "b"] false)
            [ItemView 0 "a"; ItemView 1 "b"] true 2)
  ∧ OutputAreaView_onRefreshRequest inheritedIdView = None.
Proof.
  destruct (first_refresh_builds_views freshView eq_refl) as (Hf & _).
  destruct (first_refresh_builds_views inheritedIdView eq_refl)
    as (_ & Hi & _).
  split.
  - rewrite Hf; [reflexivity|]. unfold ordinaryIds, ordinaryId.
    refine (bool_decide_unpack _ _). vm_compute. exact I.
  - apply Hi. unfold ordinaryIds, ordinaryId. intros H.
    apply Forall_cons in H as [H _]. apply H.
    refine (bool_decide_unpack _ _). vm_compute. exact I.
Defined.

(** ** What a refresh does to any live child list *)

Lemma elem_of_removeWidget_ne (x y : Widget) (ws : list Widget) :
  x ∈ ws → x ≠ y → x ∈ removeWidget y ws.
Proof.
  induction ws as [|z ws IH]; intros Hin Hne; [done|].
  rewrite removeWidget_cons. apply elem_of_cons in Hin as [->|Hin].
  - rewrite decide_False by done. apply list_elem_of_here.
  - destruct (decide (z = y)); [done|]. by apply list_elem_of_further, IH.
Qed.

Lemma frontInv_step (L : list Widget) (done : list string) (id : string)
    (s : Sync) :
  frontInv L done s → frontInv L (done ++ [id]) (ownStep (length done) id s).
Proof.
  intros (vs & rest & Hw & HL & Hvs & Hmap & Hall & Hops).
  assert (Hlen : length vs = length done).
  { apply (f_equal length) in Hvs. by rewrite !length_fmap in Hvs. }
  set (view := default (ItemView (s_nextUid s) id) (s_itemIdMap s !! id)).
  assert (Htag : widget_itemId view = Some id).
  { unfold view. destruct (s_itemIdMap s !! id) as [w|] eqn:E; [|done].
    by apply Hmap in E as [? _]. }
  assert (HnotP : view ∉ vs).
  { unfold view. destruct (s_itemIdMap s !! id) as [w|] eqn:E; simpl.
    - apply Hmap in E as (Hk & Hout & _). intros Hin. apply Hout.
      apply (list_elem_of_fmap_2 widget_itemId) in Hin. rewrite Hvs, Hk in Hin.
      by apply list_elem_of_fmap_1 in Hin as (k & [= <-] & ?).
    - intros Hin. assert (Hin' : ItemView (s_nextUid s) id ∈ s_widgets s).
      { rewrite Hw. apply elem_of_app. by left. }
      eapply Forall_forall in Hall; [|exact Hin']. simpl in Hall. lia. }
  assert (Hwidgets : s_widgets (ownStep (length done) id s)
                     = (vs ++ [view]) ++ removeWidget view rest).
  { rewrite ownStep_widgets. fold view. rewrite Hw, <-Hlen.
    rewrite place_widget by done. by rewrite <-app_assoc. }
  exists (vs ++ [view]), (removeWidget view rest). split_and!.
  - exact Hwidgets.
  - intros w Hin%removeWidget_subseteq. by apply HL.
  - rewrite !fmap_app, Hvs. simpl. by rewrite Htag.
  - intros k w. rewrite ownStep_itemIdMap.
    intros [Hne Hk]%lookup_delete_Some. apply Hmap in Hk as (Hk & Hout & Hin).
    split_and!; [done| |].
    + intros [?|?%list_elem_of_singleton]%elem_of_app; congruence.
    + apply elem_of_removeWidget_ne; [done|]. intros ->. congruence.
  - unfold allocated. rewrite Hwidgets, ownStep_nextUid.
    assert (Hold : ∀ w, w ∈ s_widgets s →
              (widget_uid w < match s_itemIdMap s !! id with
                              | Some _ => s_nextUid s
                              | None => S (s_nextUid s)
                              end)).
    { intros w Hin. eapply Forall_forall in Hall; [|exact Hin]. simpl in Hall.
      destruct (s_itemIdMap s !! id); lia. }
    apply Forall_forall. intros w [[Hin|Hin]%elem_of_app|Hin]%elem_of_app.
    + apply Hold. rewrite Hw. apply elem_of_app. by left.
    + apply list_elem_of_singleton in Hin as ->. unfold view.
      destruct (s_itemIdMap s !! id) as [w|] eqn:E; simpl; [|lia].
      apply (Hold w).
      apply Hmap in E as (_ & _ & Hin). rewrite Hw. apply elem_of_app. by right.
    + apply Hold. rewrite Hw. apply elem_of_app. right.
      by apply removeWidget_subseteq in Hin.
  - destruct (ownStep_ops (length done) id s) as (moved & -> & Hmoved).
    rewrite !Forall_app. split_and!; [done| |].
    + destruct (s_itemIdMap s !! id); repeat constructor. by intros [].
    + eapply Forall_impl; [exact Hmoved|]. by intros [] ? ?.
Qed.

Lemma frontInv_loop (L : list Widget) (rest done : list string) (s : Sync) :
  frontInv L done s →
  frontInv L (done ++ rest) (ownLoop (length done) rest s).
Proof.
  revert done s. induction rest as [|id rest IH]; intros done s Hinv; simpl.
  - by rewrite app_nil_r.
  - replace (done ++ id :: rest) with ((done ++ [id]) ++ rest)
      by (by rewrite <-app_assoc).
    replace (S (length done)) with (length (done ++ [id]))
      by (rewrite length_app; simpl; lia).
    by apply IH, frontInv_step.
Qed.

Lemma removeAll_subseteq (stale ws : list Widget) :
  foldl (λ ws w, removeWidget w ws) ws stale ⊆ ws.
Proof.
  revert ws. induction stale as [|x stale IH]; intros ws; [done|].
  simpl. intros w Hw. apply IH in Hw. by apply removeWidget_subseteq in Hw.
Qed.

(** The run on the own entries, whatever the live children are. *)
Lemma ownRefresh_front_matches_model (v : OutputAreaView) :
  allocated (nextUid v) (widgets v) →
  let r := ownRefresh v in
  let ids := outputItemIds (_area v) in
  (∃ vs rest,
     widgets r.1 = vs ++ rest
     ∧ widget_itemId <$> vs = Some <$> ids
     ∧ rest ⊆ widgets v)
  ∧ widget_itemId <$> take (length ids) (widgets r.1) = Some <$> ids
  ∧ (∀ w, OpDispose w ∈ r.2 →
          w ∈ widgets v ∧ ∃ k, widget_itemId w = Some k ∧ k ∉ ids).
Proof.
  intros Hall r ids.
  assert (H0 : frontInv (widgets v) []
                 (mkSync (widgets v) (ownItemIdMap (widgets v))
                         (nextUid v) [])).
  { exists [], (widgets v). simpl. split_and!; try done.
    intros k w [Hin Hk]%ownItemIdMap_tag. split_and!; [done| |done].
    apply not_elem_of_nil. }
  apply (frontInv_loop (widgets v) ids []) in H0. simpl in H0.
  set (s1 := ownLoop 0 ids _) in H0.
  destruct H0 as (vs & rest & Hw & Hrest & Hvs & Hmap & _ & Hops).
  set (stale := staleViews (s_itemIdMap s1)).
  assert (Hstale : ∀ w, w ∈ stale →
            (w ∈ rest) ∧ ∃ k, widget_itemId w = Some k ∧ k ∉ ids).
  { intros w (k & Hk)%elem_of_staleViews.
    apply Hmap in Hk as (Hk & Hout & Hin). eauto. }
  assert (Hlen : length vs = length ids).
  { apply (f_equal length) in Hvs. by rewrite !length_fmap in Hvs. }
  assert (Hfinal : widgets r.1
            = vs ++ foldl (λ ws w, removeWidget w ws) rest stale).
  { unfold r, ownRefresh. fold ids s1 stale. simpl.
    rewrite disposeStale_widgets, Hw. apply removeAll_app_r.
    intros w (_ & k & Hk & Hout)%Hstale Hin.
    apply (list_elem_of_fmap_2 widget_itemId) in Hin. rewrite Hvs, Hk in Hin.
    by apply list_elem_of_fmap_1 in Hin as (k' & [= <-] & ?). }
  split_and!.
  - exists vs, (foldl (λ ws w, removeWidget w ws) rest stale).
    split_and!; [done..|]. intros w Hin%removeAll_subseteq. by apply Hrest.
  - rewrite Hfinal, <-Hlen, take_app_length. exact Hvs.
  - intros w Hin. unfold r, ownRefresh in Hin.
    fold ids s1 stale in Hin. simpl in Hin.
    rewrite disposeStale_ops, elem_of_app, list_elem_of_fmap in Hin.
    destruct Hin as [Hin|(w' & [= <-] & Hin)].
    + eapply Forall_forall in Hops; [|exact Hin]. by destruct Hops.
    + apply Hstale in Hin as (Hin & Hk). split; [by apply Hrest|done].
Qed.

(** X2: whatever the live children are (the allocator being ahead of
    them, the ids of the model ordinary and no live view tagged
    [__proto__]), the refresh runs to its end, and then the first children
    are item views for the model's ids, one per position and in model
    order; the children behind them are children that were there before;
    and the refresh never disposes a view whose id the model lists, or a
    widget that was not a child. *)
Theorem refresh_front_matches_model (v : OutputAreaView) :
  allocated (nextUid v) (widgets v) →
  ordinaryIds (outputItemIds (_area v)) →
  "__proto__" ∉ itemTags (widgets v) →
  ∃ r, OutputAreaView_onRefreshRequest v = Some r
    ∧ (∃ vs rest,
         widgets r.1 = vs ++ rest
         ∧ widget_itemId <$> vs = Some <$> outputItemIds (_area v)
         ∧ rest ⊆ widgets v)
    ∧ widget_itemId <$> take (length (outputItemIds (_area v))) (widgets r.1)
      = Some <$> outputItemIds (_area v)
    ∧ (∀ w, OpDispose w ∈ r.2 →
            w ∈ widgets v
            ∧ ∃ k, widget_itemId w = Some k ∧ k ∉ outputItemIds (_area v)).
Proof.
  intros Hall Hids Htags. exists (ownRefresh v).
  split; [by apply refresh_own|]. by apply ownRefresh_front_matches_model.
Qed.

(** X2 at [mixedView]: the views for [b] and [d] come first. *)
Lemma refresh_front_matches_model_witness :
  ∃ r, OutputAreaView_onRefreshRequest mixedView = Some r
       ∧ widget_itemId <$> take 2 (widgets r.1) = [Some "b"; Some "d"].
Proof.
  destruct (refresh_front_matches_model mixedView) as (r & Hr & _ & Hfront & _).
  - unfold allocated. refine (bool_decide_unpack _ _). vm_compute. exact I.
  - unfold ordinaryIds, ordinaryId. refine (bool_decide_unpack _ _).
    vm_compute. exact I.
  - refine (bool_decide_unpack _ _). vm_compute. exact I.
  - exists r. split; [exact Hr|exact Hfront].
Defined.

(** ** A model without items *)

Lemma itemTags_item_views (ws : list Widget) :
  itemTags ws
  = omap widget_itemId (filter (λ w, is_Some (widget_itemId w)) ws).
Proof.
  induction ws as [|w ws IH]; [done|]. rewrite itemTags_cons.
  destruct w as [u k|u].
  - rewrite filter_cons_True by (by eexists). simpl. by rewrite IH.
  - rewrite filter_cons_False by (by intros [? ?]). exact IH.
Qed.

Lemma item_views_NoDup (ws : list Widget) :
  NoDup (itemTags ws) → NoDup (filter (λ w, is_Some (widget_itemId w)) ws).
Proof.
  induction ws as [|w ws IH]; intros Hnd; [constructor|].
  rewrite itemTags_cons in Hnd.
  destruct w as [u k|u]; simpl in Hnd.
  - apply NoDup_cons in Hnd as [Hk Hnd].
    rewrite filter_cons_True by (by eexists).
    apply NoDup_cons. split; [|by apply IH].
    intros [_ Hin]%list_elem_of_filter. apply Hk, elem_of_itemTags. eauto.
  - rewrite filter_cons_False by (by intros [? ?]). by apply IH.
Qed.

Lemma staleViews_NoDup (m : gmap string Widget) :
  (∀ k w, m !! k = Some w → widget_itemId w = Some k) →
  NoDup (staleViews m).
Proof.
  intros Hm. unfold staleViews. apply NoDup_fmap_2_strong.
  - intros [k1 w1] [k2 w2] H1%elem_of_map_to_list H2%elem_of_map_to_list.
    simpl. intros <-. apply Hm in H1, H2. congruence.
  - apply NoDup_map_to_list.
Qed.

(** The run on the own entries under a model without item ids: the sweep
    alone. *)
Lemma refresh_empty_model (v : OutputAreaView) :
  outputItemIds (_area v) = [] →
  NoDup (itemTags (widgets v)) →
  let r := ownRefresh v in
  widgets r.1 = foreignWidgets (widgets v)
  ∧ nextUid r.1 = nextUid v
  ∧ r.2 ≡ₚ OpDispose <$> filter (λ w, is_Some (widget_itemId w)) (widgets v).
Proof.
  intros Hids Hnd r. unfold r, ownRefresh.
  rewrite Hids. simpl.
  set (stale := staleViews (ownItemIdMap (widgets v))).
  assert (Hstale : ∀ w, w ∈ stale ↔ w ∈ widgets v ∧ is_Some (widget_itemId w)).
  { intros w. unfold stale. rewrite elem_of_staleViews. split.
    - intros (k & [Hin Hk]%ownItemIdMap_tag). split; [done|by eexists].
    - intros (Hin & k & Hk). exists k. by apply ownItemIdMap_spec. }
  rewrite disposeStale_widgets, disposeStale_ops, disposeStale_nextUid. simpl.
  split_and!; [|done|].
  - rewrite removeAll_filter; [|done|by intros w [_ ?]%Hstale].
    apply filter_ext_in. intros w Hin. rewrite Hstale. split.
    + intros Hno. destruct (widget_itemId w) eqn:E; [|done].
      exfalso. apply Hno. split; [done|by eexists].
    + intros Hnone [_ [k Hk]]. congruence.
  - apply fmap_Permutation, NoDup_Permutation.
    + apply staleViews_NoDup. by intros k w [_ ?]%ownItemIdMap_tag.
    + by apply item_views_NoDup.
    + intros w. rewrite Hstale, list_elem_of_filter. tauto.
Qed.

(** X3: when the model has no item ids and the live item views carry
    pairwise distinct ids, none of them [__proto__], the refresh runs to
    its end, disposes every item view, once each and nothing else, creates
    nothing, and leaves exactly the foreign children, in their order. *)
Theorem refresh_clears_all_views (v : OutputAreaView) :
  outputItemIds (_area v) = [] →
  NoDup (itemTags (widgets v)) →
  "__proto__" ∉ itemTags (widgets v) →
  ∃ r, OutputAreaView_onRefreshRequest v = Some r
    ∧ widgets r.1 = foreignWidgets (widgets v)
    ∧ itemTags (widgets r.1) = []
    ∧ nextUid r.1 = nextUid v
    ∧ r.2 ≡ₚ OpDispose <$> filter (λ w, is_Some (widget_itemId w)) (widgets v)
    ∧ length r.2 = length (itemTags (widgets v)).
Proof.
  intros Hids Hnd Hproto. exists (ownRefresh v). split.
  { apply refresh_own; [|done]. rewrite Hids. constructor. }
  destruct (refresh_empty_model v Hids Hnd) as (Hw & Hn & Hops).
  split_and!; [done| |done|done|].
  - rewrite Hw. apply itemTags_foreign.
  - rewrite Hops, length_fmap, itemTags_item_views.
    clear. induction (widgets v) as [|w ws IH]; [done|].
    destruct w as [u k|u].
    + rewrite filter_cons_True by (by eexists). simpl. by rewrite IH.
    + rewrite filter_cons_False by (by intros [? ?]). exact IH.
Qed.

(** X3 at the three views of [reorderedView] under the empty default. *)
Lemma refresh_clears_all_views_witness :
  ∃ r, OutputAreaView_onRefreshRequest
         (mkOutputAreaView "area" emptyArea (widgets reorderedView) false 3)
       = Some r
       ∧ widgets r.1 = [] ∧ length r.2 = 3.
Proof.
  destruct (refresh_clears_all_views
              (mkOutputAreaView "area" emptyArea (widgets reorderedView)
                                false 3))
    as (r & Hr & Hw & _ & _ & _ & Hlen).
  - reflexivity.
  - refine (bool_decide_unpack _ _). vm_compute. exact I.
  - refine (bool_decide_unpack _ _). vm_compute. exact I.
  - exists r. split; [exact Hr|]. split; [exact Hw|exact Hlen].
Defined.

(** X4: when the store has no area for the view's id, the change handler
    followed by the refresh leaves no item view among the children: the
    refresh runs to its end, every item view is disposed and the foreign
    children stay (for live item views with pairwise distinct ids, none of
    them [__proto__]). *)
Theorem missing_area_shows_nothing (state : OutputState) (v : OutputAreaView) :
  outputAreaTable state !! areaId v = None →
  NoDup (itemTags (widgets v)) →
  "__proto__" ∉ itemTags (widgets v) →
  ∃ r, OutputAreaView_onRefreshRequest
         (OutputAreaView_onStoreChanged state v).1 = Some r
    ∧ widgets r.1 = foreignWidgets (widgets v)
    ∧ itemTags (widgets r.1) = []
    ∧ trustedClass r.1 = false
    ∧ (∀ w, w ∈ widgets v → is_Some (widget_itemId w) → OpDispose w ∈ r.2).
Proof.
  intros Hnone Hnd Hproto.
  set (v1 := (OutputAreaView_onStoreChanged state v).1).
  assert (Harea : _area v1 = emptyArea).
  { destruct (OutputAreaView_onStoreChanged_area state v) as [Ha _].
    fold v1 in Ha. rewrite Ha. unfold lookupArea. by rewrite Hnone. }
  assert (Hw1 : widgets v1 = widgets v).
  { unfold v1, OutputAreaView_onStoreChanged. by case_decide. }
  exists (ownRefresh v1). split.
  { apply refresh_own; [|by rewrite Hw1]. rewrite Harea. constructor. }
  destruct (refresh_empty_model v1) as (Hw & _ & Hops).
  { by rewrite Harea. }
  { by rewrite Hw1. }
  rewrite Hw1 in Hw, Hops. split_and!.
  - exact Hw.
  - rewrite Hw. apply itemTags_foreign.
  - unfold ownRefresh. simpl. by rewrite Harea.
  - intros w Hin Hview. rewrite Hops. apply list_elem_of_fmap_2.
    by apply list_elem_of_filter.
Qed.

(** X4 at [mixedView] and a store without areas. *)
Lemma missing_area_shows_nothing_witness :
  ∃ r, OutputAreaView_onRefreshRequest
         (OutputAreaView_onStoreChanged (mkOutputState ∅ ∅) mixedView).1
       = Some r
       ∧ widgets r.1 = [Foreign 7].
Proof.
  destruct (missing_area_shows_nothing (mkOutputState ∅ ∅) mixedView)
    as (r & Hr & Hw & _).
  - reflexivity.
  - refine (bool_decide_unpack _ _). vm_compute. exact I.
  - refine (bool_decide_unpack _ _). vm_compute. exact I.
  - exists r. split; [exact Hr|exact Hw].
Defined.

(** ** What an area view keeps between refreshes *)

Lemma lookupArea_distinct (state : OutputState) (k : string) :
  distinctItemIds state →
  NoDup (outputItemIds (lookupArea state k))
  ∧ ordinaryIds (outputItemIds (lookupArea state k)).
Proof.
  intros Hd. unfold lookupArea.
  destruct (outputAreaTable state !! k) as [area|] eqn:E; simpl.
  - by apply (Hd k).
  - split; constructor.
Qed.

(** The conditions are kept by the change handler and by a refresh, which
    runs to its end under them. *)
Lemma areaViewOk_new (k : string) (n : nat) : areaViewOk (OutputAreaView_new k n).
Proof. split_and!; simpl; constructor. Qed.

Lemma areaViewOk_storeChanged (state : OutputState) (v : OutputAreaView) :
  distinctItemIds state → areaViewOk v →
  areaViewOk (OutputAreaView_onStoreChanged state v).1.
Proof.
  intros Hstate (Htags & Hotags & Hall & Hids & Hoids).
  destruct (OutputAreaView_onStoreChanged_area state v) as [Ha _].
  assert (Hsame : widgets (OutputAreaView_onStoreChanged state v).1 = widgets v
                  ∧ nextUid (OutputAreaView_onStoreChanged state v).1 = nextUid v).
  { unfold OutputAreaView_onStoreChanged. by case_decide. }
  destruct Hsame as [Hw Hn]. unfold areaViewOk. rewrite Hw, Hn, Ha.
  destruct (lookupArea_distinct state (areaId v) Hstate) as [? ?].
  by split_and!.
Qed.

Lemma areaViewOk_refresh (v : OutputAreaView) :
  areaViewOk v →
  OutputAreaView_onRefreshRequest v = Some (ownRefresh v)
  ∧ areaViewOk (ownRefresh v).1.
Proof.
  intros (Htags & Hotags & Hall & Hids & Hoids).
  split; [apply refresh_own; [done|by apply ordinaryIds_proto]|].
  destruct (refresh_structure v Htags Hall)
    as (vs & _ & _ & Hw & Hvs & _ & _ & _ & _ & Hall').
  assert (Ht : itemTags (widgets (ownRefresh v).1) = outputItemIds (_area v)).
  { rewrite Hw, itemTags_app, itemTags_foreign, app_nil_r.
    by apply itemTags_views. }
  unfold areaViewOk. rewrite Ht. by split_and!.
Qed.

(** X5: as long as every snapshot the view is told of lists each item id
    once and has ordinary item ids, every state the view reaches from its
    constructor through change notifications and refreshes has item views
    with pairwise distinct, ordinary ids, identities below the allocator,
    and a model without repeated ids; in every such state the refresh runs
    to its end, orders the children as the model, and a second refresh
    does nothing. *)
Theorem reachable_area_view_ok (v : OutputAreaView) :
  reachableAreaView v →
  areaViewOk v ∧ reconciles v ∧ secondRefreshIdle v.
Proof.
  intros Hreach.
  assert (Hok : areaViewOk v).
  { induction Hreach as [k n|state v Hstate _ IH|v v' ops _ IH Hr].
    - apply areaViewOk_new.
    - by apply areaViewOk_storeChanged.
    - destruct (areaViewOk_refresh v IH) as [_ Hok'].
      apply refresh_inv in Hr. by rewrite <-Hr in Hok'. }
  split; [exact Hok|].
  destruct (areaViewOk_refresh v Hok) as [Hrun Hok'].
  destruct Hok as (Htags & Hotags & Hall & Hids & Hoids).
  split.
  - exists (ownRefresh v). split; [exact Hrun|].
    by apply ownRefresh_reconciled.
  - destruct (ownRefresh_idempotent v Hids Htags Hall) as (Hfix & _ & _).
    destruct (areaViewOk_refresh _ Hok') as [Hrun' _].
    exists (ownRefresh v).1, (ownRefresh v).2. split.
    + rewrite Hrun. by destruct (ownRefresh v).
    + by rewrite Hrun', Hfix.
Qed.

(** X5 at a view that was told of [sampleState] and refreshed. *)
Lemma reachable_area_view_ok_witness :
  areaViewOk
    (mkOutputAreaView "area" (mkOutputArea 1 true ["a"; "b"] false)
       [ItemView 0 "a"; ItemView 1 "b"] true 2).
Proof.
  refine (proj1 (reachable_area_view_ok _ _)).
  apply (reachArea_refresh
           (OutputAreaView_onStoreChanged sampleState
              (OutputAreaView_new "area" 0)).1 _
           [OpCreate (ItemView 0 "a"); OpInsert 0 (ItemView 0 "a");
            OpCreate (ItemView 1 "b"); OpInsert 1 (ItemView 1 "b")]).
  - apply reachArea_storeChanged; [|apply reachArea_new].
    intros k area Hk. unfold sampleState in Hk. simpl in Hk.
    apply lookup_singleton_Some in Hk as [_ <-]. simpl.
    unfold ordinaryIds, ordinaryId.
    split; refine (bool_decide_unpack _ _); vm_compute; exact I.
  - vm_compute. reflexivity.
Defined.

(** ** How many views a refresh creates and disposes *)

Lemma ownItemIdMap_None (ws : list Widget) (k : string) :
  NoDup (itemTags ws) →
  ownItemIdMap ws !! k = None ↔ k ∉ itemTags ws.
Proof.
  intros Hnd. split.
  - intros Hnone (w & Hin & Hk)%elem_of_itemTags.
    assert (ownItemIdMap ws !! k = Some w)
      by (by apply ownItemIdMap_spec).
    congruence.
  - intros Hout. unfold ownItemIdMap. by rewrite collect_notin.
Qed.

Lemma filter_none {A} (P : A → Prop) `{∀ x, Decision (P x)} (l : list A) :
  Forall (λ x, ¬ P x) l → filter P l = [].
Proof.
  induction 1 as [|x l Hx _ IH]; [done|]. by rewrite filter_cons_False.
Qed.

Lemma filter_isCreate_moves (moved : list Op) :
  Forall isMove moved → filter isCreate moved = [].
Proof.
  induction 1 as [|op moved Hop _ IH]; [done|].
  rewrite filter_cons_False; [done|]. destruct op; simpl in *; tauto.
Qed.

Lemma ownLoop_creates (L : list Widget) (n0 : nat) (rest done : list string)
    (s : Sync) :
  NoDup (itemTags L) →
  syncInv L (ownItemIdMap L) n0 done s →
  NoDup (done ++ rest) →
  let s' := ownLoop (length done) rest s in
  let missing := filter (λ k, k ∉ itemTags L) rest in
  s_nextUid s' = s_nextUid s + length missing
  ∧ length (filter isCreate (s_ops s'))
    = length (filter isCreate (s_ops s)) + length missing.
Proof.
  intros HL. revert done s.
  induction rest as [|id rest IH]; intros done s Hinv Hnd; simpl.
  - split; lia.
  - assert (Hout : id ∉ done).
    { apply NoDup_app in Hnd as (_ & Hd & _). intros Hin.
      apply (Hd id Hin), list_elem_of_here. }
    assert (Hlook : s_itemIdMap s !! id = ownItemIdMap L !! id).
    { destruct Hinv as (vs & _ & _ & Hmap & _). rewrite Hmap.
      by rewrite decide_False. }
    pose proof (syncInv_step L n0 HL done id s Hinv) as Hinv'.
    replace (S (length done)) with (length (done ++ [id]))
      by (rewrite length_app; simpl; lia).
    destruct (IH (done ++ [id]) (ownStep (length done) id s) Hinv')
      as [Hn Hc]; [by rewrite <-app_assoc|].
    rewrite Hn, Hc, ownStep_nextUid.
    destruct (ownStep_ops (length done) id s) as (moved & -> & Hmoved).
    rewrite !filter_app, !length_app, (filter_isCreate_moves moved Hmoved).
    rewrite filter_cons. rewrite Hlook.
    destruct (ownItemIdMap L !! id) as [w|] eqn:E.
    + assert (Hin : id ∈ itemTags L).
      { apply ownItemIdMap_tag in E as [? ?]. apply elem_of_itemTags. eauto. }
      rewrite decide_False by (by intros ?). simpl. split; lia.
    + apply ownItemIdMap_None in E; [|done].
      rewrite decide_True by done. simpl. split; lia.
Qed.

Lemma length_filter_gone (ids : list string) (ws : list Widget) :
  length (filter (goneFrom ids) ws)
  = length (filter (λ k, k ∉ ids) (itemTags ws)).
Proof.
  induction ws as [|w ws IH]; [done|]. rewrite itemTags_cons.
  destruct w as [u k|u]; simpl.
  - rewrite (filter_cons (λ k, k ∉ ids)).
    destruct (decide (k ∉ ids)) as [Hout|Hin].
    + rewrite filter_cons_True by (by exists k). simpl. by rewrite IH.
    + rewrite filter_cons_False; [done|]. intros (k' & [= <-] & ?). done.
  - rewrite filter_cons_False; [done|]. intros (k' & [=] & _).
Qed.

(** The numbers of creations and disposals of the run on the own entries. *)
Lemma ownRefresh_churn_counts (v : OutputAreaView) :
  NoDup (outputItemIds (_area v)) →
  NoDup (itemTags (widgets v)) →
  allocated (nextUid v) (widgets v) →
  let r := ownRefresh v in
  let ids := outputItemIds (_area v) in
  let missing := filter (λ k, k ∉ itemTags (widgets v)) ids in
  let gone := filter (λ k, k ∉ ids) (itemTags (widgets v)) in
  nextUid r.1 = nextUid v + length missing
  ∧ length (filter isCreate r.2) = length missing
  ∧ length (filter isDispose r.2) = length gone.
Proof.
  intros Hids Hnd Hall r ids missing gone.
  pose proof (syncInv_init (widgets v) (nextUid v) Hall) as H0.
  destruct (ownLoop_creates (widgets v) (nextUid v) ids [] _ Hnd H0 Hids)
    as [Hn Hc].
  pose proof (syncInv_loop (widgets v) (nextUid v) Hnd ids [] _ H0) as Hinv.
  simpl in Hn, Hc, Hinv.
  set (s1 := ownLoop 0 ids
               (mkSync (widgets v) (ownItemIdMap (widgets v)) (nextUid v) []))
    in *.
  destruct Hinv as (vs & _ & _ & Hmap & _ & _ & _ & Hops).
  set (stale := staleViews (s_itemIdMap s1)).
  assert (Hr2 : r.2 = s_ops s1 ++ (OpDispose <$> stale)).
  { unfold r, ownRefresh. fold ids s1 stale. simpl.
    by rewrite disposeStale_ops. }
  assert (Hstale : stale ≡ₚ filter (goneFrom ids) (widgets v)).
  { apply NoDup_Permutation.
    - apply staleViews_NoDup. intros k w Hk. rewrite Hmap in Hk.
      destruct (decide (k ∈ ids)); [done|].
      by apply ownItemIdMap_tag in Hk as [_ ?].
    - assert (Hsub : filter (goneFrom ids) (widgets v)
                = filter (goneFrom ids)
                    (filter (λ w, is_Some (widget_itemId w)) (widgets v))).
      { rewrite list_filter_filter. apply list_filter_iff. intros w. split.
        - intros (k & Hk & Hout). split; [by exists k|by eexists].
        - by intros [? _]. }
      rewrite Hsub. by apply NoDup_filter, item_views_NoDup.
    - intros w. unfold stale. rewrite elem_of_staleViews, list_elem_of_filter.
      split.
      + intros (k & Hk). rewrite Hmap in Hk.
        destruct (decide (k ∈ ids)); [done|].
        apply ownItemIdMap_tag in Hk as [Hin Hk].
        split; [by exists k|done].
      + intros ((k & Hk & Hout) & Hin). exists k. rewrite Hmap.
        rewrite decide_False by done. by apply ownItemIdMap_spec. }
  assert (Hnodispose : filter isDispose (s_ops s1) = []).
  { clear -Hops. induction Hops as [|op ops Hop _ IH]; [done|].
    rewrite filter_cons_False; [done|]. destruct op; simpl in *; tauto. }
  split_and!.
  - unfold r, ownRefresh. fold ids s1 stale. simpl.
    by rewrite disposeStale_nextUid.
  - rewrite Hr2, filter_app, length_app, Hc. simpl.
    assert (Hno : filter isCreate (OpDispose <$> stale) = []).
    { apply filter_none, Forall_forall.
      intros op (w & -> & _)%list_elem_of_fmap. simpl. tauto. }
    rewrite Hno. simpl. unfold missing. lia.
  - rewrite Hr2, filter_app, length_app, Hnodispose. simpl.
    assert (Hall' : filter isDispose (OpDispose <$> stale) = OpDispose <$> stale).
    { apply filter_all, Forall_forall. by intros op (w & -> & _)%list_elem_of_fmap. }
    rewrite Hall', length_fmap, Hstale. apply length_filter_gone.
Qed.

(** X6: with pairwise distinct ids in the model and on the live item views
    (the model's ids ordinary, no live view tagged [__proto__]), the
    refresh runs to its end, creates exactly as many views as the model
    has ids without a live view (the allocator moves by that number), and
    disposes exactly as many as there are live item views whose id the
    model does not list. *)
Theorem refresh_churn_counts (v : OutputAreaView) :
  NoDup (outputItemIds (_area v)) →
  ordinaryIds (outputItemIds (_area v)) →
  NoDup (itemTags (widgets v)) →
  "__proto__" ∉ itemTags (widgets v) →
  allocated (nextUid v) (widgets v) →
  ∃ r, OutputAreaView_onRefreshRequest v = Some r
    ∧ nextUid r.1
      = nextUid v
        + length (filter (λ k, k ∉ itemTags (widgets v))
                         (outputItemIds (_area v)))
    ∧ length (filter isCreate r.2)
      = length (filter (λ k, k ∉ itemTags (widgets v))
                       (outputItemIds (_area v)))
    ∧ length (filter isDispose r.2)
      = length (filter (λ k, k ∉ outputItemIds (_area v))
                       (itemTags (widgets v))).
Proof.
  intros Hids Hord Hnd Hproto Hall. exists (ownRefresh v).
  split; [by apply refresh_own|]. by apply ownRefresh_churn_counts.
Qed.

(** X6 at [mixedView]: one view is created (for [d]), one is disposed (the
    view of [a]). *)
Lemma refresh_churn_counts_witness :
  ∃ r, OutputAreaView_onRefreshRequest mixedView = Some r
       ∧ length (filter isCreate r.2) = 1
       ∧ length (filter isDispose r.2) = 1.
Proof.
  destruct (refresh_churn_counts mixedView) as (r & Hr & _ & Hc & Hd).
  - refine (bool_decide_unpack _ _). vm_compute. exact I.
  - unfold ordinaryIds, ordinaryId. refine (bool_decide_unpack _ _).
    vm_compute. exact I.
  - refine (bool_decide_unpack _ _). vm_compute. exact I.
  - refine (bool_decide_unpack _ _). vm_compute. exact I.
  - unfold allocated. refine (bool_decide_unpack _ _). vm_compute. exact I.
  - exists r. split; [exact Hr|].
    split; [rewrite Hc|rewrite Hd]; vm_compute; reflexivity.
Defined.

(** ** What an item view shows *)

Lemma refresh_keeps_item (v : OutputItemView) :
  let v' := (OutputItemView_onRefreshRequest v).1 in
  itemId v' = itemId v ∧ rendermime v' = rendermime v ∧ _item v' = _item v
  ∧ dataset_mimeType v' = Some (refreshMimeType v)
  ∧ dataset_outputType v' = Some (item_type (_item v))
  ∧ item_trustedClass v' = item_trusted (_item v).
Proof.
  unfold OutputItemView_onRefreshRequest.
  fold (refreshModel v) (refreshMimeType v).
  destruct (layout_widget v) as [old|]; repeat case_decide;
    try destruct (setLayoutWidget _ _); done.
Qed.

(** X7: after a refresh of an item view (in any state it can reach), the
    layout holds a renderer exactly when the registry resolved a mime type
    for the item's bundle; that renderer was created for the resolved mime
    type and has rendered the model of the current item; and the node's
    dataset records the resolved mime type and the item's type on every
    path, the early returns included. *)
Theorem refresh_shows_resolved_type (v : OutputItemView) :
  reachableItemView v →
  let r := OutputItemView_onRefreshRequest v in
  (refreshMimeType v = EmptyString → layout_widget r.1 = None)
  ∧ (refreshMimeType v ≠ EmptyString →
     ∃ w, layout_widget r.1 = Some w
          ∧ r_mimeType w = refreshMimeType v
          ∧ r_model w = Some (refreshModel v))
  ∧ dataset_mimeType r.1 = Some (refreshMimeType v)
  ∧ dataset_outputType r.1 = Some (item_type (_item v))
  ∧ item_trustedClass r.1 = item_trusted (_item v).
Proof.
  intros Hreach r.
  pose proof (rendererBound_reachable v Hreach) as Hbound.
  destruct (refresh_keeps_item v) as (_ & _ & _ & Hm & Ht & Hc).
  fold r in Hm, Ht, Hc. split_and!; [| |done..].
  - intros Hempty. unfold r, OutputItemView_onRefreshRequest.
    fold (refreshModel v) (refreshMimeType v). rewrite Hempty.
    destruct (layout_widget v) as [old|] eqn:Hold.
    + destruct (Hbound old Hold) as (Hrec & Hne & _).
      rewrite decide_False by congruence.
      rewrite decide_True by done. by rewrite setLayoutWidget_clear.
    + rewrite decide_True by done. by rewrite setLayoutWidget_clear.
  - intros Hmime. unfold r, OutputItemView_onRefreshRequest.
    fold (refreshModel v) (refreshMimeType v).
    destruct (layout_widget v) as [old|] eqn:Hold.
    + destruct (Hbound old Hold) as (Hrec & Hne & Hlt).
      case_decide as Hsame.
      * eexists. split_and!; [done| |done]. simpl. congruence.
      * rewrite decide_False by done.
        rewrite setLayoutWidget_fresh by (simpl; lia).
        eexists. by split_and!.
    + rewrite decide_False by done. rewrite setLayoutWidget_first.
      eexists. by split_and!.
Qed.

(** X7 at the view whose item went away: nothing is shown. *)
Lemma refresh_shows_resolved_type_witness :
  dataset_mimeType
    (OutputItemView_onRefreshRequest (clearedItemView sampleState)).1
  = Some EmptyString.
Proof.
  apply (refresh_shows_resolved_type (clearedItemView sampleState)).
  unfold clearedItemView.
  apply reach_storeChanged, reach_refresh, reach_storeChanged, reach_new.
Defined.

(** X8: in every state an item view can reach, a renderer in the layout
    carries the renderer class, was created for the mime type that the
    node's dataset records (never the empty one), and has rendered a model
    whose [setData] callback dispatches for the view's own item id. *)
Theorem reachable_renderer_ready (v : OutputItemView) :
  reachableItemView v → rendererReady v.
Proof.
  induction 1 as [k rm n|state v _ IH|v Hv IH].
  - intros r [=].
  - unfold OutputItemView_onStoreChanged. by case_decide.
  - pose proof (rendererBound_reachable v Hv) as Hbound.
    unfold OutputItemView_onRefreshRequest.
    fold (refreshModel v) (refreshMimeType v).
    destruct (layout_widget v) as [old|] eqn:Hold.
    + destruct (IH old Hold) as (Hcls & Hne & Hrec & _).
      destruct (Hbound old Hold) as (_ & _ & Hlt).
      case_decide as Hsame.
      * intros r [= <-]. simpl. split_and!; [done..|congruence|by eexists].
      * case_decide as Hmime.
        -- rewrite setLayoutWidget_clear. by intros r [=].
        -- rewrite setLayoutWidget_fresh by (simpl; lia).
           intros r [= <-]. simpl. split_and!; [done..|by eexists].
    + case_decide as Hmime.
      * rewrite setLayoutWidget_clear. by intros r [=].
      * rewrite setLayoutWidget_first.
        intros r [= <-]. simpl. split_and!; [done..|by eexists].
Qed.

(** X8 at the stream view after a change of the store and a refresh. *)
Lemma reachable_renderer_ready_witness :
  rendererReady
    (OutputItemView_onRefreshRequest
       (OutputItemView_onStoreChanged sampleState
          (OutputItemView_new "a" firstKeyRenderMime 0)).1).1.
Proof.
  apply reachable_renderer_ready.
  apply reach_refresh, reach_storeChanged, reach_new.
Defined.

Lemma OutputItemView_ext (a b : OutputItemView) :
  itemId a = itemId b → rendermime a = rendermime b → _item a = _item b →
  layout_widget a = layout_widget b →
  dataset_outputType a = dataset_outputType b →
  dataset_mimeType a = dataset_mimeType b →
  item_trustedClass a = item_trustedClass b →
  item_nextUid a = item_nextUid b →
  a = b.
Proof. destruct a, b. simpl. intros. by subst. Qed.

(** X9: refreshing an item view a second time, the item unchanged, leaves
    the view as it is: the renderer in the layout is kept and renders the
    same model once more, nothing is created and nothing is disposed; a view
    that shows nothing does nothing. (The allocator is ahead of the renderer
    in the layout.) *)
Theorem second_item_refresh_rerenders (v : OutputItemView) :
  rendererAllocated v →
  let v1 := (OutputItemView_onRefreshRequest v).1 in
  OutputItemView_onRefreshRequest v1
  = (v1, match layout_widget v1 with
         | Some r => [RRender (r_uid r) (refreshModel v)]
         | None => []
         end).
Proof.
  intros Hfresh v1.
  destruct (refresh_keeps_item v) as (Hid & Hrm & Hitem & Hm & Ht & Hc).
  fold v1 in Hid, Hrm, Hitem, Hm, Ht, Hc.
  assert (Hmodel : refreshModel v1 = refreshModel v).
  { unfold refreshModel. by rewrite Hid, Hitem. }
  assert (Hmime : refreshMimeType v1 = refreshMimeType v).
  { unfold refreshMimeType. by rewrite Hrm, Hitem. }
  assert (Hshown : match layout_widget v1 with
                   | Some r => r_model r = Some (refreshModel v)
                   | None => refreshMimeType v = EmptyString
                   end).
  { unfold v1, OutputItemView_onRefreshRequest.
    fold (refreshModel v) (refreshMimeType v).
    destruct (layout_widget v) as [old|] eqn:Hold.
    - specialize (Hfresh old Hold). case_decide as Hsame; [done|].
      case_decide as Hempty.
      + by rewrite setLayoutWidget_clear.
      + by rewrite setLayoutWidget_fresh by (simpl; lia).
    - case_decide as Hempty.
      + by rewrite setLayoutWidget_clear.
      + by rewrite setLayoutWidget_first. }
  unfold OutputItemView_onRefreshRequest at 1.
  fold (refreshModel v1) (refreshMimeType v1).
  rewrite Hmodel, Hmime, Hm, Hid, Hrm, Hitem.
  destruct (layout_widget v1) as [w|] eqn:Hw.
  - rewrite decide_True by done.
    assert (Hsame : renderModel w (refreshModel v) = w).
    { destruct w as [u m c rm']. simpl in Hshown. unfold renderModel. simpl.
      by rewrite Hshown. }
    rewrite Hsame. f_equal. apply OutputItemView_ext; simpl; congruence.
  - rewrite Hshown, decide_True by done. rewrite setLayoutWidget_clear.
    f_equal. apply OutputItemView_ext; simpl; congruence.
Qed.

(** X9 at the stream view. *)
Lemma second_item_refresh_rerenders_witness :
  let v1 := (OutputItemView_onRefreshRequest
               (streamView "hi" "text/plain")).1 in
  (OutputItemView_onRefreshRequest v1).1 = v1.
Proof.
  intros v1.
  pose proof (second_item_refresh_rerenders (streamView "hi" "text/plain"))
    as H.
  fold v1 in H. rewrite H; [done|].
  intros r [= <-]. simpl. lia.
Defined.

(** ** Change notifications *)

(** X10: a change handler only rebinds the view's object: it leaves the
    children, the renderer, the node state and the allocator alone; and told
    of the same snapshot a second time it asks for no refresh and changes
    nothing, whatever the view held before the first time. *)
Theorem notification_twice_is_once (state : OutputState)
    (va : OutputAreaView) (vi : OutputItemView) :
  let ra := OutputAreaView_onStoreChanged state va in
  let ri := OutputItemView_onStoreChanged state vi in
  OutputAreaView_onStoreChanged state ra.1 = (ra.1, false)
  ∧ OutputItemView_onStoreChanged state ri.1 = (ri.1, false)
  ∧ widgets ra.1 = widgets va ∧ nextUid ra.1 = nextUid va
  ∧ trustedClass ra.1 = trustedClass va
  ∧ layout_widget ri.1 = layout_widget vi
  ∧ dataset_mimeType ri.1 = dataset_mimeType vi
  ∧ item_nextUid ri.1 = item_nextUid vi.
Proof.
  intros ra ri.
  destruct (OutputAreaView_onStoreChanged_area state va) as [Ha Haid].
  destruct (OutputItemView_onStoreChanged_item state vi) as [Hi Hiid].
  fold ra in Ha, Haid. fold ri in Hi, Hiid. split_and!.
  - unfold OutputAreaView_onStoreChanged at 1. rewrite Haid.
    by rewrite decide_True.
  - unfold OutputItemView_onStoreChanged at 1. rewrite Hiid.
    by rewrite decide_True.
  - unfold ra, OutputAreaView_onStoreChanged. by case_decide.
  - unfold ra, OutputAreaView_onStoreChanged. by case_decide.
  - unfold ra, OutputAreaView_onStoreChanged. by case_decide.
  - unfold ri, OutputItemView_onStoreChanged. by case_decide.
  - unfold ri, OutputItemView_onStoreChanged. by case_decide.
  - unfold ri, OutputItemView_onStoreChanged. by case_decide.
Qed.

Section OwnObject.
Variable reducer : OutputState → OutputAction → OutputState.
Variable emits : OutputState → OutputAction → bool.

Lemma areaTurn_own_object (events : list TurnEvent) (state : OutputState)
    (v : OutputAreaView) (pending : bool) :
  Forall (λ st, lookupArea st (areaId v) = _area v)
         (snapshots reducer events state) →
  let c := foldl (areaTurnStep reducer emits) (state, v, pending) events in
  c.1.2 = v ∧ (c.2 = true → pending = true ∨ EvRefresh ∈ events).
Proof.
  revert state pending.
  induction events as [|[action|] events IH]; intros state pending Hall.
  - simpl. split; [done|]. by left.
  - simpl in Hall. apply Forall_cons in Hall as [Hhere Hall].
    assert (Hstep : areaTurnStep reducer emits (state, v, pending)
                      (EvDispatch action)
                    = (reducer state action, v, pending)).
    { simpl. destruct (emits state action); [|done].
      unfold OutputAreaView_onStoreChanged.
      rewrite decide_True by done. by rewrite orb_false_r. }
    cbv zeta. cbn [foldl]. rewrite Hstep.
    destruct (IH (reducer state action) pending Hall) as [Hv Hp].
    split; [exact Hv|]. intros Hc. destruct (Hp Hc) as [?|Hin]; [by left|].
    right. by apply list_elem_of_further.
  - simpl in Hall. cbv zeta. cbn [foldl].
    destruct (IH state true Hall) as [Hv Hp].
    split; [exact Hv|]. intros _. right. apply list_elem_of_here.
Qed.

Lemma itemTurn_own_object (events : list TurnEvent) (state : OutputState)
    (v : OutputItemView) (pending : bool) :
  Forall (λ st, lookupItem st (itemId v) = _item v)
         (snapshots reducer events state) →
  let c := foldl (itemTurnStep reducer emits) (state, v, pending) events in
  c.1.2 = v ∧ (c.2 = true → pending = true ∨ EvRefresh ∈ events).
Proof.
  revert state pending.
  induction events as [|[action|] events IH]; intros state pending Hall.
  - simpl. split; [done|]. by left.
  - simpl in Hall. apply Forall_cons in Hall as [Hhere Hall].
    assert (Hstep : itemTurnStep reducer emits (state, v, pending)
                      (EvDispatch action)
                    = (reducer state action, v, pending)).
    { simpl. destruct (emits state action); [|done].
      unfold OutputItemView_onStoreChanged.
      rewrite decide_True by done. by rewrite orb_false_r. }
    cbv zeta. cbn [foldl]. rewrite Hstep.
    destruct (IH (reducer state action) pending Hall) as [Hv Hp].
    split; [exact Hv|]. intros Hc. destruct (Hp Hc) as [?|Hin]; [by left|].
    right. by apply list_elem_of_further.
  - simpl in Hall. cbv zeta. cbn [foldl].
    destruct (IH state true Hall) as [Hv Hp].
    split; [exact Hv|]. intros _. right. apply list_elem_of_here.
Qed.

(** X11: a view is refreshed for its own object only: if in every snapshot
    of a turn the table holds, for the view's id, the object the view holds
    already, then the view is the same after the turn, however often the
    store fired [changed], and a refresh is pending only if [refresh()] was
    called on the view. *)
Theorem unrelated_changes_do_not_refresh (events : list TurnEvent)
    (state : OutputState) (va : OutputAreaView) (vi : OutputItemView) :
  (Forall (λ st, lookupArea st (areaId va) = _area va)
          (snapshots reducer events state) →
   (areaTurn reducer emits events state va).1.2 = va
   ∧ ((areaTurn reducer emits events state va).2 = true → EvRefresh ∈ events))
  ∧ (Forall (λ st, lookupItem st (itemId vi) = _item vi)
            (snapshots reducer events state) →
     (itemTurn reducer emits events state vi).1.2 = vi
     ∧ ((itemTurn reducer emits events state vi).2 = true →
        EvRefresh ∈ events)).
Proof.
  split; intros Hall.
  - destruct (areaTurn_own_object events state va false Hall) as [Hv Hp].
    split; [exact Hv|]. intros Hc. by destruct (Hp Hc).
  - destruct (itemTurn_own_object events state vi false Hall) as [Hv Hp].
    split; [exact Hv|]. intros Hc. by destruct (Hp Hc).
Qed.
End OwnObject.

(** X11 in the sample store, firing [changed] on every dispatch: a clear of
    another area leaves the view of the area [area] alone. *)
Lemma unrelated_changes_do_not_refresh_witness :
  let v := (OutputAreaView_onStoreChanged sampleState
              (OutputAreaView_new "area" 0)).1 in
  let events := [EvDispatch (ClearOutputsAction "other" false);
                 EvDispatch (ClearOutputsAction "other" false)] in
  (areaTurn sampleReducer alwaysEmits events sampleState v).1.2 = v.
Proof.
  intros v events.
  apply (unrelated_changes_do_not_refresh sampleReducer alwaysEmits events
           sampleState v (streamView "hi" "text/plain")).
  refine (bool_decide_unpack _ _). vm_compute. exact I.
Defined.

(** ** The bundle of stream and error items *)

Lemma append_nonempty_r (a b : string) :
  b ≠ EmptyString → String.append a b ≠ EmptyString.
Proof. destruct a; simpl; [done|discriminate]. Qed.

Lemma append_inj_l (p a b : string) :
  String.append p a = String.append p b → a = b.
Proof. induction p as [|c p IH]; simpl; [done|]. intros [= H]. by apply IH. Qed.

(** X12: the text of an error item is never empty: without a traceback it
    is the name and the value around a colon, which has the colon even when
    both are empty; so the bundle of an error item always has text to
    show. *)
Theorem formatError_not_empty (e : ErrorOutput) :
  formatError e ≠ EmptyString
  ∧ ∀ ref t, getData (mkOutputItem ref t (ErrorOutputItem e))
             ≠ [("application/vnd.jupyter.stderr", JString EmptyString)].
Proof.
  assert (H : formatError e ≠ EmptyString).
  { unfold formatError. case_decide; [|done].
    apply append_nonempty_r. discriminate. }
  split; [exact H|]. intros ref t. unfold getData. simpl. congruence.
Qed.

(** X13: an error item is shown as standard error: its bundle and metadata
    are those of a [stderr] stream item carrying the formatted error text;
    and stream items of different stream names never share a mime key, while
    a stream item's text is read back from its bundle unchanged. *)
Theorem error_is_stderr_stream (e : ErrorOutput) (ref ref' : nat)
    (t t' : bool) (name name' text text' : string) :
  getData (mkOutputItem ref t (ErrorOutputItem e))
  = getData (mkOutputItem ref' t' (StreamOutput "stderr" (formatError e)))
  ∧ getMetadata (mkOutputItem ref t (ErrorOutputItem e))
    = getMetadata (mkOutputItem ref' t' (StreamOutput "stderr" (formatError e)))
  ∧ (getData (mkOutputItem ref t (StreamOutput name text))
     = getData (mkOutputItem ref' t' (StreamOutput name' text')) →
     name = name' ∧ text = text')
  ∧ (name ≠ name' →
     (getData (mkOutputItem ref t (StreamOutput name text))).*1
     ≠ (getData (mkOutputItem ref' t' (StreamOutput name' text'))).*1).
Proof.
  split_and!; try reflexivity.
  - unfold getData. simpl. intros [= Hk Ht]. split; [|done].
    by apply (append_inj_l EmptyString).
  - unfold getData. simpl. intros Hne [= Hk]. apply Hne.
    by apply (append_inj_l EmptyString).
Qed.

(** X13 for the two standard streams. *)
Lemma error_is_stderr_stream_witness :
  (getData (mkOutputItem 1 true (StreamOutput "stdout" "x"))).*1
  ≠ (getData (mkOutputItem 2 true (StreamOutput "stderr" "x"))).*1.
Proof.
  apply (error_is_stderr_stream (mkErrorOutput "E" "v" EmptyString) 1 2
           true true "stdout" "stderr" "x" "x").
  discriminate.
Defined.

(** ** Refresh requests among other messages *)

Lemma refreshExecutions_post_other (handler : nat) (msg : Message)
    (queue : MessageQueue) :
  msg_type msg ≠ "refresh-request" →
  refreshExecutions (postMessage handler msg queue) = refreshExecutions queue.
Proof.
  intros Hne. unfold postMessage.
  destruct (isConflatable msg && existsb _ queue); [done|].
  rewrite refreshExecutions_app. unfold refreshExecutions at 2.
  rewrite filter_cons_False by done. by rewrite app_nil_r.
Qed.

Lemma post_other_keeps_pending (this handler : nat) (msg : Message)
    (queue : MessageQueue) :
  (this, RefreshRequest) ∈ queue →
  (this, RefreshRequest) ∈ postMessage handler msg queue.
Proof.
  intros Hin. unfold postMessage.
  destruct (isConflatable msg && existsb _ queue); [done|].
  apply elem_of_app. by left.
Qed.

Lemma postAll_pending (posts : list (nat * Message)) (this : nat)
    (queue : MessageQueue) :
  Forall (λ p, p.2 = RefreshRequest ∨ msg_type p.2 ≠ "refresh-request") posts →
  (this, RefreshRequest) ∈ queue →
  executionsOf this (postAll posts queue) = executionsOf this queue.
Proof.
  revert queue. induction posts as [|[h msg] posts IH]; intros queue Hall Hin;
    [done|].
  apply Forall_cons in Hall as [Hhere Hall]. simpl in Hhere.
  change (postAll ((h, msg) :: posts) queue)
    with (postAll posts (postMessage h msg queue)).
  rewrite IH; [|done|by apply post_other_keeps_pending].
  destruct Hhere as [->|Hother].
  - destruct (decide (this = h)) as [<-|Hne].
    + fold (refresh this queue). by rewrite refresh_pending.
    + fold (refresh h queue). by apply refresh_other.
  - unfold executionsOf. by rewrite refreshExecutions_post_other.
Qed.

(** X14: refresh requests keep collapsing among other traffic: when the
    messages posted in a turn are refresh requests and messages of other
    types, for any handlers and in any order, a node without pending request
    runs [_onRefreshRequest] once if a refresh was requested for it and not
    at all otherwise; the other messages neither trigger nor suppress a
    refresh. *)
Theorem refresh_among_other_messages (posts : list (nat * Message))
    (this : nat) (queue : MessageQueue) :
  Forall (λ p, p.2 = RefreshRequest ∨ msg_type p.2 ≠ "refresh-request") posts →
  this ∉ refreshExecutions queue →
  executionsOf this (postAll posts queue)
  = if decide ((this, RefreshRequest) ∈ posts) then 1 else 0.
Proof.
  revert queue. induction posts as [|[h msg] posts IH]; intros queue Hall Hout.
  - rewrite decide_False by apply not_elem_of_nil. by apply executionsOf_zero.
  - apply Forall_cons in Hall as [Hhere Hall]. simpl in Hhere.
    change (postAll ((h, msg) :: posts) queue)
      with (postAll posts (postMessage h msg queue)).
    destruct Hhere as [->|Hother].
    + destruct (decide (this = h)) as [<-|Hne].
      * rewrite decide_True by apply list_elem_of_here.
        fold (refresh this queue). rewrite refresh_first by done.
        rewrite postAll_pending; [|done|].
        -- rewrite executionsOf_app, executionsOf_zero by done.
           by rewrite executionsOf_single, decide_True.
        -- apply elem_of_app. right. apply list_elem_of_here.
      * fold (refresh h queue).
        destruct (refresh_other this h queue Hne) as (_ & _ & Hstill).
        rewrite IH; [|done|by apply Hstill].
        destruct (decide ((this, RefreshRequest) ∈ posts)) as [Hin|Hnin].
        -- rewrite decide_True; [done|]. by apply list_elem_of_further.
        -- rewrite decide_False; [done|].
           intros [[= ?]|?]%elem_of_cons; congruence.
    + rewrite IH; [|done|by rewrite refreshExecutions_post_other].
      destruct (decide ((this, RefreshRequest) ∈ posts)) as [Hin|Hnin].
      * rewrite decide_True; [done|]. by apply list_elem_of_further.
      * rewrite decide_False; [done|].
        intros [[= ? Hm]|?]%elem_of_cons; [|done].
        apply Hother. by rewrite <-Hm.
Qed.

(** X14 for two requests of the node [4] around an attach message and
    another node's resize message. *)
Lemma refresh_among_other_messages_witness :
  executionsOf 4
    (postAll [(4, RefreshRequest); (4, mkMessage "after-attach" false);
              (9, mkMessage "resize" true); (4, RefreshRequest)] []) = 1.
Proof.
  apply (refresh_among_other_messages
           [(4, RefreshRequest); (4, mkMessage "after-attach" false);
            (9, mkMessage "resize" true); (4, RefreshRequest)] 4 []).
  - refine (bool_decide_unpack _ _). vm_compute. exact I.
  - apply not_elem_of_nil.
Defined.

(** ** Actions *)

(** X15: the [type] of an action tells its class: two actions carry the
    same type name exactly when they are of the same class, so a reducer
    that switches on [action.type] never takes one class for another; and
    what [_setData] dispatches is a set-data action for the view's own item
    that carries the data and metadata options as they are, absent ones as
    [null]. *)
Theorem action_type_tells_class (a b : OutputAction) (v : OutputItemView)
    (options : ISetDataOptions) :
  (OutputActionType a = OutputActionType b ↔ actionClass a = actionClass b)
  ∧ actionClass (OutputItemView_setData v options) = IsSetData
  ∧ OutputItemView_setData v options
    = SetOutputDataAction (itemId v) (opt_data options) (opt_metadata options)
  ∧ OutputActionType (OutputItemView_setData v options)
    ≠ OutputActionType (AppendOutputAction (itemId v) (item_variant (_item v)))
  ∧ OutputActionType (OutputItemView_setData v options)
    ≠ OutputActionType (ClearOutputsAction (itemId v) false).
Proof.
  split_and!; try done.
  destruct a, b; simpl; split; intros H; try done; discriminate H.
Qed.
